(** * configmap-rs-operator: the reconciliation core, embedded and verified

    A shallow embedding of [internal/config/config.go] and
    [internal/controller/replicaset_controller.go].

    Conventions.
    - A Go [string] is a byte sequence: Rocq's [string] (a list of [ascii]).
    - A Go [map[string]bool] is a [gmap string bool]; reading an absent key
      gives [false], Go's zero value.
    - [time.Time] is an instant on the wall clock, a [Z] counting
      nanoseconds; [Before] and [After] are the strict orders.
    - A [for ... range] loop over a slice is a [fold_left] over the list,
      the loop's variables being the threaded state.
    - [client.Client] is an interface in the source and a type class here;
      the cluster it talks to is the state threaded through [Reconcile].
    - Logging has no effect on any value the program computes and is left
      out. *)

From Stdlib Require Import ZArith List String Ascii Bool Lia.
From stdpp Require Import base option list strings gmap fin_maps.
Import ListNotations.

Local Open Scope string_scope.
Local Open Scope list_scope.

(* ===================================================================== *)
(** * Go's [strings] package: the two functions [FinalizeConfig] calls    *)
(* ===================================================================== *)

Definition byte (n : nat) : ascii := ascii_of_nat n.

Fixpoint bytes (l : list nat) : string :=
  match l with
  | [] => EmptyString
  | n :: l' => String (byte n) (bytes l')
  end.

(** [strings.Split(s, sep)] for a one-byte separator, the only kind the
    program passes ([","]): the pieces between the separators, an empty
    piece wherever two separators touch or one sits at an end; always at
    least one piece. *)
Fixpoint Split (s : string) (sep : ascii) : list string :=
  match s with
  | EmptyString => [EmptyString]
  | String c s' =>
      if Ascii.eqb c sep then EmptyString :: Split s' sep
      else match Split s' sep with
           | piece :: pieces => String c piece :: pieces
           | [] => [String c EmptyString]
           end
  end.

(** The six ASCII white-space bytes of Go's [asciiSpace] table:
    ['\t'], ['\n'], ['\v'], ['\f'], ['\r'] and [' ']. *)
Definition asciiSpace (c : ascii) : bool :=
  let n := nat_of_ascii c in
  (n =? 9)%nat || (n =? 10)%nat || (n =? 11)%nat || (n =? 12)%nat
  || (n =? 13)%nat || (n =? 32)%nat.

(** [unicode.IsSpace] beyond ASCII, on the UTF-8 encoding: U+0085 and
    U+00A0 take two bytes, U+1680, U+2000..U+200A, U+2028, U+2029, U+202F,
    U+205F and U+3000 take three. *)
Definition isSpace2 (b1 b2 : ascii) : bool :=
  (nat_of_ascii b1 =? 194)%nat
  && ((nat_of_ascii b2 =? 133)%nat || (nat_of_ascii b2 =? 160)%nat).

Definition isSpace3 (b1 b2 b3 : ascii) : bool :=
  let n1 := nat_of_ascii b1 in
  let n2 := nat_of_ascii b2 in
  let n3 := nat_of_ascii b3 in
  ((n1 =? 225)%nat && (n2 =? 154)%nat && (n3 =? 128)%nat)
  || ((n1 =? 226)%nat && (n2 =? 128)%nat
      && (((128 <=? n3)%nat && (n3 <=? 138)%nat)
          || (n3 =? 168)%nat || (n3 =? 169)%nat || (n3 =? 175)%nat))
  || ((n1 =? 226)%nat && (n2 =? 129)%nat && (n3 =? 159)%nat)
  || ((n1 =? 227)%nat && (n2 =? 128)%nat && (n3 =? 128)%nat).

(** [strings.TrimLeftFunc(s, unicode.IsSpace)]: drop runes from the front
    while they are white space. A byte that starts no white-space rune
    stops the scan. *)
Fixpoint trimLeft (s : string) : string :=
  match s with
  | EmptyString => EmptyString
  | String b1 s1 =>
      if asciiSpace b1 then trimLeft s1
      else match s1 with
           | String b2 s2 =>
               if isSpace2 b1 b2 then trimLeft s2
               else match s2 with
                    | String b3 s3 =>
                        if isSpace3 b1 b2 b3 then trimLeft s3 else s
                    | EmptyString => s
                    end
           | EmptyString => s
           end
  end.

(** [strings.TrimRightFunc(s, unicode.IsSpace)], on the reversed string:
    the last rune comes first and its bytes come last-to-first. *)
Fixpoint trimLeftRev (s : string) : string :=
  match s with
  | EmptyString => EmptyString
  | String b1 s1 =>
      if asciiSpace b1 then trimLeftRev s1
      else match s1 with
           | String b2 s2 =>
               if isSpace2 b2 b1 then trimLeftRev s2
               else match s2 with
                    | String b3 s3 =>
                        if isSpace3 b3 b2 b1 then trimLeftRev s3 else s
                    | EmptyString => s
                    end
           | EmptyString => s
           end
  end.

Definition revString (s : string) : string :=
  string_of_list_ascii (rev (list_ascii_of_string s)).

(** [strings.TrimSpace(s)]: white space removed from both ends, the front
    first. *)
Definition TrimSpace (s : string) : string :=
  revString (trimLeftRev (revString (trimLeft s))).

(** A string that does not begin with an ASCII white-space byte. *)
Definition startsClean (s : string) : Prop :=
  match s with
  | String c _ => asciiSpace c = false
  | EmptyString => True
  end.

(* ===================================================================== *)
(** * [internal/config/config.go]                                         *)
(* ===================================================================== *)

Definition trueValue : string := "true".

(** [OperatorConfig]. [namespaceRegexStr] is a pointer in the source:
    [None] is [nil]. *)
Record OperatorConfig := mkOperatorConfig {
  NamespaceRegex : list string;
  DryRun : bool;
  Debug : bool;
  Trace : bool;
  namespaceRegexStr : option string
}.

(** The values [flag.Parse] finds on the command line for the four flags
    [NewConfig] registers: [--namespace-regex], [--dry-run], [--debug] and
    [--trace]; an absent flag has its registered default ([""] and
    [false]). *)
Record Flags := mkFlags {
  flag_namespace_regex : string;
  flag_dry_run : bool;
  flag_debug : bool;
  flag_trace : bool
}.

(** [NewConfig()]: the zero configuration, its pointer set to the string
    variable registered for [--namespace-regex]; the registered variables
    hold their defaults until the flags are parsed. *)
Definition NewConfig : OperatorConfig :=
  {| NamespaceRegex := [];
     DryRun := false;
     Debug := false;
     Trace := false;
     namespaceRegexStr := Some "" |}.

(** [flag.Parse()] writes the command line's values into the registered
    variables: three fields of the configuration and the string the
    stored pointer refers to. *)
Definition Parse (f : Flags) (c : OperatorConfig) : OperatorConfig :=
  {| NamespaceRegex := NamespaceRegex c;
     DryRun := flag_dry_run f;
     Debug := flag_debug f;
     Trace := flag_trace f;
     namespaceRegexStr :=
       match namespaceRegexStr c with
       | Some _ => Some (flag_namespace_regex f)
       | None => None
       end |}.

(** The process environment; [os.Getenv] gives [""] for an unset
    variable. *)
Definition Getenv (env : gmap string string) (key : string) : string :=
  default "" (env !! key).

Definition comma : ascii := ","%char.

(** The loop [for i, pattern := range ... { ...[i] = TrimSpace(pattern) }]. *)
Definition splitPatterns (s : string) : list string :=
  map TrimSpace (Split s comma).

Definition FinalizeConfig (env : gmap string string) (c : OperatorConfig)
  : OperatorConfig :=
  (* Parse namespace regex patterns from flags *)
  let regex1 :=
    match namespaceRegexStr c with
    | Some str => if negb (String.eqb str "") then splitPatterns str
                  else NamespaceRegex c
    | None => NamespaceRegex c
    end in
  (* Override with environment variables if present *)
  let envRegex := Getenv env "NAMESPACE_REGEX" in
  let regex2 :=
    if negb (String.eqb envRegex "") then splitPatterns envRegex
    else regex1 in
  let dryRun :=
    if String.eqb (Getenv env "DRY_RUN") trueValue then true else DryRun c in
  let debug1 :=
    if String.eqb (Getenv env "DEBUG") trueValue then true else Debug c in
  let trace_on := String.eqb (Getenv env "TRACE") trueValue in
  {| NamespaceRegex := regex2;
     DryRun := dryRun;
     Debug := if trace_on then true else debug1;
     Trace := if trace_on then true else Trace c;
     namespaceRegexStr := namespaceRegexStr c |}.

(** The start-up sequence: [NewConfig], [flag.Parse], [FinalizeConfig]. *)
Definition loadConfig (env : gmap string string) (f : Flags) : OperatorConfig :=
  FinalizeConfig env (Parse f NewConfig).

Definition LogLevel (c : OperatorConfig) : Z :=
  if Trace c then (-2)%Z
  else if Debug c then (-1)%Z
  else 0%Z.

(* ===================================================================== *)
(** * The Kubernetes objects the controller reads and writes              *)
(* ===================================================================== *)

Definition Time := Z.

(** [t.Before(u)] and [t.After(u)]: both strict. *)
Definition Before (t u : Time) : bool := (t <? u)%Z.
Definition After (t u : Time) : bool := (u <? t)%Z.

(** Go's [error] values the controller can meet: an API status error with
    its reason, or any other error. [nil] is [None] of [option error]. *)
Inductive error :=
| StatusError (reason : string)
| PlainError (msg : string).

(** [errors.IsNotFound]. *)
Definition IsNotFound (e : error) : bool :=
  match e with
  | StatusError reason => String.eqb reason "NotFound"
  | PlainError _ => false
  end.

Record OwnerReference := mkOwnerReference {
  ref_APIVersion : string;
  ref_Kind : string;
  ref_Name : string;
  ref_UID : string;
  ref_Controller : option bool;
  ref_BlockOwnerDeletion : option bool
}.

Record ObjectMeta := mkObjectMeta {
  Name : string;
  Namespace : string;
  UID : string;
  CreationTimestamp : Time;
  OwnerReferences : list OwnerReference
}.

Record VolumeMount := mkVolumeMount { vm_Name : string }.

Record Container := mkContainer {
  c_Name : string;
  VolumeMounts : list VolumeMount
}.

(** [corev1.ConfigMapVolumeSource]; [vol_ConfigMap] is a pointer to one. *)
Record ConfigMapVolumeSource := mkConfigMapVolumeSource { cmvs_Name : string }.

Record Volume := mkVolume {
  vol_Name : string;
  vol_ConfigMap : option ConfigMapVolumeSource
}.

Record PodSpec := mkPodSpec {
  Volumes : list Volume;
  InitContainers : list Container;
  Containers : list Container
}.

Record PodTemplateSpec := mkPodTemplateSpec { tpl_Spec : PodSpec }.

Record ReplicaSetSpec := mkReplicaSetSpec { Template : PodTemplateSpec }.

Record ReplicaSet := mkReplicaSet {
  rs_Meta : ObjectMeta;
  rs_Spec : ReplicaSetSpec
}.

Record ConfigMap := mkConfigMap {
  cm_Meta : ObjectMeta;
  cm_Data : gmap string string
}.

(** [types.NamespacedName] as a pair (namespace, name); a [ctrl.Request]
    carries exactly one. *)
Abbreviation NamespacedName := (string * string)%type.

Definition req_Namespace (req : NamespacedName) : string := fst req.
Definition req_Name (req : NamespacedName) : string := snd req.

(** [ctrl.Result]. *)
Record Result := mkResult { Requeue : bool; RequeueAfter : Z }.

Definition emptyResult : Result := {| Requeue := false; RequeueAfter := 0 |}.

(** [client.Object] values an event can carry. *)
Inductive Object :=
| ReplicaSetObject (rs : ReplicaSet)
| ConfigMapObject (cm : ConfigMap)
| OtherObject (kind : string) (meta : ObjectMeta).

(** The four event kinds of controller-runtime's [event] package. *)
Inductive Event :=
| CreateEvent (object : Object)
| UpdateEvent (objectOld objectNew : Object)
| DeleteEvent (object : Object) (deleteStateUnknown : bool)
| GenericEvent (object : Object).

(** [predicate.Funcs], with all four functions set as the source sets
    them, and the dispatch of the [Predicate] interface. *)
Record Funcs := mkFuncs {
  CreateFunc : Object -> bool;
  UpdateFunc : Object -> Object -> bool;
  DeleteFunc : Object -> bool -> bool;
  GenericFunc : Object -> bool
}.

Definition admits (p : Funcs) (e : Event) : bool :=
  match e with
  | CreateEvent o => CreateFunc p o
  | UpdateEvent o n => UpdateFunc p o n
  | DeleteEvent o u => DeleteFunc p o u
  | GenericEvent o => GenericFunc p o
  end.

(* ===================================================================== *)
(** * The collaborators: regular expressions, the scheme, the client      *)
(* ===================================================================== *)

(** [regexp.MatchString(pattern, s)] returns [(matched, err)]; [err] is
    set when the pattern does not compile. The controller is verified
    against any implementation of this signature. *)
Class Regexp := { MatchString : string -> string -> bool * option error }.

Record GroupVersionKind := mkGVK {
  gvk_Group : string;
  gvk_Version : string;
  gvk_Kind : string
}.

(** [gvk.GroupVersion().String()]. *)
Definition GroupVersionString (gvk : GroupVersionKind) : string :=
  if String.eqb (gvk_Group gvk) "" then gvk_Version gvk
  else gvk_Group gvk ++ "/" ++ gvk_Version gvk.

(** What a [runtime.Scheme] knows about the Go type [appsv1.ReplicaSet]:
    the group-version-kinds it is registered under. *)
Record Scheme := mkScheme { ReplicaSetKinds : list GroupVersionKind }.

(** [apiutil.GVKForObject] at a ReplicaSet: exactly one registered kind,
    or an error. *)
Definition GVKForObject (scheme : Scheme) : error + GroupVersionKind :=
  match ReplicaSetKinds scheme with
  | [gvk] => inr gvk
  | [] => inl (PlainError "no kind is registered for the type")
  | _ => inl (PlainError "multiple group-version-kinds associated with type")
  end.

(** The group of [schema.ParseGroupVersion]: none before a version alone,
    the part before the one slash otherwise; more slashes do not parse. *)
Definition ParseGroup (apiVersion : string) : option string :=
  match Split apiVersion "/"%char with
  | [_] => Some ""
  | [g; _] => Some g
  | _ => None
  end.

(** controller-runtime's [referSameObject]: same group, kind and name. *)
Definition referSameObject (a b : OwnerReference) : bool :=
  match ParseGroup (ref_APIVersion a), ParseGroup (ref_APIVersion b) with
  | Some ga, Some gb =>
      String.eqb ga gb && String.eqb (ref_Kind a) (ref_Kind b)
      && String.eqb (ref_Name a) (ref_Name b)
  | _, _ => false
  end.

(** controller-runtime's [upsertOwnerRef]: the first reference to the same
    object is replaced, and the new one is appended when there is none. *)
Fixpoint upsertOwnerRef (ref : OwnerReference) (owners : list OwnerReference)
  : list OwnerReference :=
  match owners with
  | [] => [ref]
  | o :: owners' =>
      if referSameObject o ref then ref :: owners'
      else o :: upsertOwnerRef ref owners'
  end.

Definition setOwnerReferences (cm : ConfigMap) (owners : list OwnerReference)
  : ConfigMap :=
  {| cm_Meta := {| Name := Name (cm_Meta cm);
                   Namespace := Namespace (cm_Meta cm);
                   UID := UID (cm_Meta cm);
                   CreationTimestamp := CreationTimestamp (cm_Meta cm);
                   OwnerReferences := owners |};
     cm_Data := cm_Data cm |}.

(** controller-runtime's [validateOwner]. *)
Definition validateOwner (owner : ReplicaSet) (object : ConfigMap)
  : option error :=
  let ownerNs := Namespace (rs_Meta owner) in
  let objNs := Namespace (cm_Meta object) in
  if negb (String.eqb ownerNs "") then
    if String.eqb objNs "" then
      Some (PlainError
              "cluster-scoped resource must not have a namespace-scoped owner")
    else if negb (String.eqb ownerNs objNs) then
      Some (PlainError "cross-namespace owner references are disallowed")
    else None
  else None.

(** [controllerutil.SetOwnerReference(owner, object, scheme)]: the object
    with a plain (non-controller, non-blocking) reference to the owner, or
    the error that stopped it. *)
Definition SetOwnerReference (owner : ReplicaSet) (object : ConfigMap)
    (scheme : Scheme) : error + ConfigMap :=
  match validateOwner owner object with
  | Some err => inl err
  | None =>
      match GVKForObject scheme with
      | inl err => inl err
      | inr gvk =>
          let ref := {| ref_APIVersion := GroupVersionString gvk;
                        ref_Kind := gvk_Kind gvk;
                        ref_Name := Name (rs_Meta owner);
                        ref_UID := UID (rs_Meta owner);
                        ref_Controller := None;
                        ref_BlockOwnerDeletion := None |} in
          inr (setOwnerReferences object
                 (upsertOwnerRef ref (OwnerReferences (cm_Meta object))))
      end
  end.

(** [client.Client], the interface embedded in the reconciler, over the
    state [W] of the cluster it talks to. [Get] reads; [Update] is the
    replace write and hands back the cluster after the call together with
    its error. *)
Class Client (W : Type) := {
  Get_ReplicaSet : W -> NamespacedName -> error + ReplicaSet;
  Get_ConfigMap : W -> NamespacedName -> error + ConfigMap;
  Update : W -> ConfigMap -> W * option error
}.

(* ===================================================================== *)
(** * [internal/controller/replicaset_controller.go]                      *)
(* ===================================================================== *)

Record ReplicaSetReconciler := mkReconciler {
  r_Scheme : Scheme;
  Config : OperatorConfig;
  StartTime : Time
}.

(** The loop of [shouldProcessNamespace]: [continue] on a compile error,
    [return true] on the first match, [false] when the patterns run out. *)
Fixpoint matchAnyPattern `{Regexp} (patterns : list string)
    (namespace : string) : bool :=
  match patterns with
  | [] => false
  | pattern :: rest =>
      let (matched, err) := MatchString pattern namespace in
      match err with
      | Some _ => matchAnyPattern rest namespace
      | None => if matched then true else matchAnyPattern rest namespace
      end
  end.

Definition shouldProcessNamespace `{Regexp} (r : ReplicaSetReconciler)
    (namespace : string) : bool :=
  if (length (NamespaceRegex (Config r)) =? 0)%nat then true
  else matchAnyPattern (NamespaceRegex (Config r)) namespace.

(** The loop state of [extractConfigMapVolumes]: [configMapSet] and
    [configMapNames]. *)
Definition ExtractState := (gmap string bool * list string)%type.

(** One iteration of the innermost loop, over the volumes. *)
Definition visitVolume (volumeMount : VolumeMount) (st : ExtractState)
    (volume : Volume) : ExtractState :=
  let (configMapSet, configMapNames) := st in
  if String.eqb (vol_Name volume) (vm_Name volumeMount) then
    match vol_ConfigMap volume with
    | Some src =>
        if negb (default false (configMapSet !! cmvs_Name src)) then
          (<[cmvs_Name src := true]> configMapSet,
           configMapNames ++ [cmvs_Name src])
        else st
    | None => st
    end
  else st.

Definition visitMount (volumes : list Volume) (st : ExtractState)
    (volumeMount : VolumeMount) : ExtractState :=
  fold_left (visitVolume volumeMount) volumes st.

Definition visitContainer (volumes : list Volume) (st : ExtractState)
    (container : Container) : ExtractState :=
  fold_left (visitMount volumes) (VolumeMounts container) st.

Definition extractConfigMapVolumes (rs : ReplicaSet) : list string :=
  let spec := tpl_Spec (Template (rs_Spec rs)) in
  let st0 : ExtractState := (∅, []) in
  (* Check all containers in all pods *)
  let st1 := fold_left (visitContainer (Volumes spec)) (Containers spec) st0 in
  (* Check init containers as well *)
  let st2 :=
    fold_left (visitContainer (Volumes spec)) (InitContainers spec) st1 in
  snd st2.

(** The test in the loop of [isOwnerReferencePresent]. *)
Definition refersTo (rs : ReplicaSet) (ownerRef : OwnerReference) : bool :=
  String.eqb (ref_Kind ownerRef) "ReplicaSet"
  && String.eqb (ref_Name ownerRef) (Name (rs_Meta rs))
  && String.eqb (ref_UID ownerRef) (UID (rs_Meta rs)).

Definition isOwnerReferencePresent (cm : ConfigMap) (rs : ReplicaSet) : bool :=
  existsb (refersTo rs) (OwnerReferences (cm_Meta cm)).

Section Controller.
Context `{Regexp} {W : Type} `{Client W}.

Definition processConfigMap (r : ReplicaSetReconciler)
    (namespace name : string) (rs : ReplicaSet) (w : W)
  : W * option error :=
  (* Get the ConfigMap *)
  match Get_ConfigMap w (namespace, name) with
  | inl err => if IsNotFound err then (w, None) else (w, Some err)
  | inr cm =>
      (* Check if ReplicaSet is already an owner *)
      if isOwnerReferencePresent cm rs then (w, None)
      else if DryRun (Config r) then (w, None)
      else
        (* Add owner reference *)
        match SetOwnerReference rs cm (r_Scheme r) with
        | inl err => (w, Some err)
        | inr cm' =>
            (* Update the ConfigMap *)
            Update w cm'
        end
  end.

(** The loop [for _, cmName := range configMapNames] of [Reconcile],
    which returns at the first error. *)
Fixpoint processConfigMaps (r : ReplicaSetReconciler) (rs : ReplicaSet)
    (configMapNames : list string) (w : W) : W * option error :=
  match configMapNames with
  | [] => (w, None)
  | cmName :: rest =>
      match processConfigMap r (Namespace (rs_Meta rs)) cmName rs w with
      | (w', Some err) => (w', Some err)
      | (w', None) => processConfigMaps r rs rest w'
      end
  end.

Definition Reconcile (r : ReplicaSetReconciler) (req : NamespacedName)
    (w : W) : W * (Result * option error) :=
  (* Check if namespace matches our selection criteria *)
  if negb (shouldProcessNamespace r (req_Namespace req)) then
    (w, (emptyResult, None))
  else
    (* Fetch the ReplicaSet instance *)
    match Get_ReplicaSet w req with
    | inl err =>
        if IsNotFound err then (w, (emptyResult, None))
        else (w, (emptyResult, Some err))
    | inr rs =>
        (* Only process ReplicaSets created after the operator started *)
        let creationTime := CreationTimestamp (rs_Meta rs) in
        if Before creationTime (StartTime r) then (w, (emptyResult, None))
        else
          (* Extract ConfigMaps referenced as volumes *)
          let configMapNames := extractConfigMapVolumes rs in
          if (length configMapNames =? 0)%nat then (w, (emptyResult, None))
          else
            (* Process each ConfigMap *)
            let (w', err) := processConfigMaps r rs configMapNames w in
            (w', (emptyResult, err))
    end.

(** Reconciling a queue of requests one after the other. *)
Definition ReconcileAll (r : ReplicaSetReconciler)
    (reqs : list NamespacedName) (w : W) : W :=
  fold_left (fun w req => fst (Reconcile r req w)) reqs w.

End Controller.

(** The predicate [SetupWithManager] installs as the event filter. *)
Definition replicaSetPredicate (r : ReplicaSetReconciler) : Funcs :=
  {| CreateFunc := fun object =>
       (* Only process CREATE events for ReplicaSets created after start *)
       match object with
       | ReplicaSetObject rs =>
           After (CreationTimestamp (rs_Meta rs)) (StartTime r)
       | _ => false
       end;
     (* Don't process UPDATE events *)
     UpdateFunc := fun _ _ => false;
     (* Don't process DELETE events *)
     DeleteFunc := fun _ _ => false;
     (* Don't process generic events *)
     GenericFunc := fun _ => false |}.

(* ===================================================================== *)
(** * The Reference Extractor as the specification words it               *)
(* ===================================================================== *)

(** The ConfigMap names one mount discovers: those of the ConfigMap-backed
    volumes that carry the mount's name, in the order of the volume list. *)
Definition mountDiscoveries (volumes : list Volume) (volumeMount : VolumeMount)
  : list string :=
  flat_map (fun volume =>
              match vol_ConfigMap volume with
              | Some src =>
                  if String.eqb (vol_Name volume) (vm_Name volumeMount)
                  then [cmvs_Name src] else []
              | None => []
              end) volumes.

Definition containerDiscoveries (volumes : list Volume) (container : Container)
  : list string :=
  flat_map (mountDiscoveries volumes) (VolumeMounts container).

(** Every discovery, primary containers first, then init containers, each
    container's mounts in order. *)
Definition discoveries (rs : ReplicaSet) : list string :=
  let spec := tpl_Spec (Template (rs_Spec rs)) in
  flat_map (containerDiscoveries (Volumes spec))
           (Containers spec ++ InitContainers spec).

(** A list cut down to the first occurrence of each of its elements. *)
Fixpoint firstOccurrences (l : list string) : list string :=
  match l with
  | [] => []
  | x :: l' =>
      x :: List.filter (fun y => negb (String.eqb y x)) (firstOccurrences l')
  end.

(** A volume is mounted when some primary or init container has a mount
    with the volume's name. *)
Definition mounted (rs : ReplicaSet) (volume : Volume) : Prop :=
  let spec := tpl_Spec (Template (rs_Spec rs)) in
  exists container volumeMount,
    In container (Containers spec ++ InitContainers spec)
    /\ In volumeMount (VolumeMounts container)
    /\ vm_Name volumeMount = vol_Name volume.

(* ===================================================================== *)
(** * An in-memory cluster implementing [client.Client]                   *)
(* ===================================================================== *)

(** The objects of a cluster by namespaced name, and the calls that fail:
    each fault table gives the error the API server answers with at a key,
    if any. *)
Record Cluster := mkCluster {
  replicaSets : gmap NamespacedName ReplicaSet;
  configMaps : gmap NamespacedName ConfigMap;
  getReplicaSetFault : NamespacedName -> option error;
  getConfigMapFault : NamespacedName -> option error;
  updateFault : NamespacedName -> option error
}.

Definition cmKey (cm : ConfigMap) : NamespacedName :=
  (Namespace (cm_Meta cm), Name (cm_Meta cm)).

(** An object is identified by the key it is stored under: what [Get]
    hands out carries that namespace and name. *)
Definition withKey (k : NamespacedName) (meta : ObjectMeta) : ObjectMeta :=
  {| Name := snd k;
     Namespace := fst k;
     UID := UID meta;
     CreationTimestamp := CreationTimestamp meta;
     OwnerReferences := OwnerReferences meta |}.

Definition notFound : error := StatusError "NotFound".

Definition clusterGetReplicaSet (w : Cluster) (k : NamespacedName)
  : error + ReplicaSet :=
  match getReplicaSetFault w k with
  | Some err => inl err
  | None =>
      match replicaSets w !! k with
      | Some rs => inr {| rs_Meta := withKey k (rs_Meta rs);
                          rs_Spec := rs_Spec rs |}
      | None => inl notFound
      end
  end.

Definition clusterGetConfigMap (w : Cluster) (k : NamespacedName)
  : error + ConfigMap :=
  match getConfigMapFault w k with
  | Some err => inl err
  | None =>
      match configMaps w !! k with
      | Some cm => inr {| cm_Meta := withKey k (cm_Meta cm);
                          cm_Data := cm_Data cm |}
      | None => inl notFound
      end
  end.

(** A replace write: it fails where the fault table says so and on an
    object that is not there; otherwise the stored object is replaced. *)
Definition clusterUpdate (w : Cluster) (cm : ConfigMap)
  : Cluster * option error :=
  match updateFault w (cmKey cm) with
  | Some err => (w, Some err)
  | None =>
      match configMaps w !! cmKey cm with
      | Some _ =>
          ({| replicaSets := replicaSets w;
              configMaps := <[cmKey cm := cm]> (configMaps w);
              getReplicaSetFault := getReplicaSetFault w;
              getConfigMapFault := getConfigMapFault w;
              updateFault := updateFault w |}, None)
      | None => (w, Some notFound)
      end
  end.

#[export] Instance ClusterClient : Client Cluster :=
  {| Get_ReplicaSet := clusterGetReplicaSet;
     Get_ConfigMap := clusterGetConfigMap;
     Update := clusterUpdate |}.

(** The same cluster behind a client that keeps a journal of every replace
    write it is asked for, whether or not the write goes through. *)
Record Journaled := mkJournaled {
  cluster : Cluster;
  journal : list ConfigMap
}.

Definition journaled (w : Cluster) : Journaled :=
  {| cluster := w; journal := [] |}.

Definition journaledUpdate (w : Journaled) (cm : ConfigMap)
  : Journaled * option error :=
  let (w', err) := clusterUpdate (cluster w) cm in
  ({| cluster := w'; journal := journal w ++ [cm] |}, err).

#[export] Instance JournaledClient : Client Journaled :=
  {| Get_ReplicaSet := fun w => clusterGetReplicaSet (cluster w);
     Get_ConfigMap := fun w => clusterGetConfigMap (cluster w);
     Update := journaledUpdate |}.

(** What the idempotence of [Reconcile] asks of a client: a read hands out
    the object of the key asked for; a failed write changes nothing; a
    write that went through on an object that could be read is read back
    with the owner references written, and leaves every other object as it
    was. *)
Class ClientLaws (W : Type) `{Client W} : Prop := {
  get_key : forall w k cm,
    Get_ConfigMap w k = inr cm -> cmKey cm = k;
  update_failure : forall w cm w' err,
    Update w cm = (w', Some err) -> w' = w;
  update_read_back : forall w cm w' cm0,
    Update w cm = (w', None) ->
    Get_ConfigMap w (cmKey cm) = inr cm0 ->
    exists cm', Get_ConfigMap w' (cmKey cm) = inr cm'
                /\ OwnerReferences (cm_Meta cm') = OwnerReferences (cm_Meta cm);
  update_frame : forall w cm w' k,
    Update w cm = (w', None) -> k <> cmKey cm ->
    Get_ConfigMap w' k = Get_ConfigMap w k;
  update_frame_ReplicaSet : forall w cm w' k,
    Update w cm = (w', None) -> Get_ReplicaSet w' k = Get_ReplicaSet w k
}.

(* ===================================================================== *)
(** * A reference implementation of [Regexp] for a fragment of Go's syntax *)
(* ===================================================================== *)

(** The fragment: ASCII literals, [.], [^], [$], the repetitions [*], [+],
    [?] (and their lazy forms), alternation, grouping, and a backslash
    before punctuation. Classes, counted repetition, flags and letter
    escapes are outside it and are reported as errors by this instance.
    The theorems about the controller hold for every [Regexp]; this one
    runs the examples. *)
Inductive regex :=
| EmptyMatch
| Literal (c : ascii)
| AnyCharNotNL
| BeginText
| EndText
| Concat (r1 r2 : regex)
| Alternate (r1 r2 : regex)
| Star (r : regex).

(** Backtracking matcher in continuation-passing style. [atStart] tells
    whether nothing of the text has been consumed; [s] is what is left. An
    iteration of a star must consume something, so the length of [s]
    bounds their number. *)
Fixpoint matchHere (re : regex) (k : bool -> string -> bool)
    (atStart : bool) (s : string) : bool :=
  match re with
  | EmptyMatch => k atStart s
  | Literal c =>
      match s with
      | String x s' => Ascii.eqb x c && k false s'
      | EmptyString => false
      end
  | AnyCharNotNL =>
      match s with
      | String x s' => negb (nat_of_ascii x =? 10)%nat && k false s'
      | EmptyString => false
      end
  | BeginText => atStart && k atStart s
  | EndText =>
      match s with
      | EmptyString => k atStart s
      | String _ _ => false
      end
  | Concat r1 r2 => matchHere r1 (matchHere r2 k) atStart s
  | Alternate r1 r2 => matchHere r1 k atStart s || matchHere r2 k atStart s
  | Star r1 =>
      (fix iterate (fuel : nat) (atStart : bool) (s : string) : bool :=
         k atStart s
         || match fuel with
            | O => false
            | S fuel' =>
                matchHere r1
                  (fun atStart' s' =>
                     (String.length s' <? String.length s)%nat
                     && iterate fuel' atStart' s')
                  atStart s
            end) (String.length s) atStart s
  end.

(** An unanchored search: a match may start at any position. *)
Fixpoint search (re : regex) (atStart : bool) (s : string) : bool :=
  matchHere re (fun _ _ => true) atStart s
  || match s with
     | EmptyString => false
     | String _ s' => search re false s'
     end.

Inductive RepState := NoRep | JustRep | LazyRep.

(** The parser's state: the enclosing groups (each with its finished
    alternatives and the items of its current one, last first), the
    current group likewise, whether the last token was a repetition, and
    whether a backslash is pending. *)
Record ParseState := mkParseState {
  frames : list (list regex * list regex);
  alts : list regex;
  items : list regex;
  rep : RepState;
  esc : bool
}.

Definition concatOf (items : list regex) : regex :=
  fold_left (fun acc r => match acc with
                          | EmptyMatch => r
                          | _ => Concat r acc
                          end) items EmptyMatch.

Definition alternateOf (alts : list regex) (last : regex) : regex :=
  fold_left (fun acc r => Alternate r acc) alts last.

Definition isAlnum (c : ascii) : bool :=
  let n := nat_of_ascii c in
  ((48 <=? n)%nat && (n <=? 57)%nat) || ((65 <=? n)%nat && (n <=? 90)%nat)
  || ((97 <=? n)%nat && (n <=? 122)%nat).

Definition pushItem (st : ParseState) (r : regex) : error + ParseState :=
  inr {| frames := frames st; alts := alts st; items := r :: items st;
         rep := NoRep; esc := false |}.

Definition repeatItem (st : ParseState) (op : regex -> regex)
  : error + ParseState :=
  match rep st, items st with
  | NoRep, r :: rest =>
      inr {| frames := frames st; alts := alts st; items := op r :: rest;
             rep := JustRep; esc := false |}
  | NoRep, [] => inl (PlainError "missing argument to repetition operator")
  | _, _ => inl (PlainError "invalid nested repetition operator")
  end.

Definition parseStep (st : ParseState) (c : ascii) : error + ParseState :=
  if esc st then
    if isAlnum c || (128 <=? nat_of_ascii c)%nat
    then inl (PlainError "escape sequence outside the fragment")
    else pushItem st (Literal c)
  else if Ascii.eqb c "\"%char then
    inr {| frames := frames st; alts := alts st; items := items st;
           rep := NoRep; esc := true |}
  else if Ascii.eqb c "("%char then
    inr {| frames := (alts st, items st) :: frames st; alts := [];
           items := []; rep := NoRep; esc := false |}
  else if Ascii.eqb c ")"%char then
    match frames st with
    | [] => inl (PlainError "unexpected )")
    | (alts', items') :: frames' =>
        inr {| frames := frames'; alts := alts';
               items := alternateOf (alts st) (concatOf (items st)) :: items';
               rep := NoRep; esc := false |}
    end
  else if Ascii.eqb c "|"%char then
    inr {| frames := frames st; alts := concatOf (items st) :: alts st;
           items := []; rep := NoRep; esc := false |}
  else if Ascii.eqb c "*"%char then repeatItem st Star
  else if Ascii.eqb c "+"%char then repeatItem st (fun r => Concat r (Star r))
  else if Ascii.eqb c "?"%char then
    match rep st with
    | JustRep =>
        inr {| frames := frames st; alts := alts st; items := items st;
               rep := LazyRep; esc := false |}
    | _ => repeatItem st (fun r => Alternate r EmptyMatch)
    end
  else if Ascii.eqb c "."%char then pushItem st AnyCharNotNL
  else if Ascii.eqb c "^"%char then pushItem st BeginText
  else if Ascii.eqb c "$"%char then pushItem st EndText
  else if Ascii.eqb c "["%char || Ascii.eqb c "{"%char then
    inl (PlainError "syntax outside the fragment")
  else pushItem st (Literal c).

Fixpoint parseFrom (st : ParseState) (pattern : string) : error + regex :=
  match pattern with
  | EmptyString =>
      if esc st then inl (PlainError "trailing backslash at end of expression")
      else match frames st with
           | [] => inr (alternateOf (alts st) (concatOf (items st)))
           | _ :: _ => inl (PlainError "missing closing )")
           end
  | String c pattern' =>
      match parseStep st c with
      | inl err => inl err
      | inr st' => parseFrom st' pattern'
      end
  end.

Definition parse (pattern : string) : error + regex :=
  parseFrom {| frames := []; alts := []; items := []; rep := NoRep;
               esc := false |} pattern.

Definition fragmentMatchString (pattern s : string) : bool * option error :=
  match parse pattern with
  | inl err => (false, Some err)
  | inr re => (search re true s, None)
  end.

#[export] Instance FragmentRegexp : Regexp :=
  {| MatchString := fragmentMatchString |}.

(* ===================================================================== *)
(** * Notions the statements use                                          *)
(* ===================================================================== *)

(** A namespace-regex input with a leading, a trailing or a doubled
    comma. *)
Definition strayComma (input : string) : Prop :=
  (exists a, input = ("," ++ a)%string)
  \/ (exists a, input = (a ++ ",")%string)
  \/ (exists a b, input = (a ++ ",," ++ b)%string).

(** What the innermost [if] of the extractor does with one discovered
    name. *)
Definition emit (st : ExtractState) (name : string) : ExtractState :=
  let (configMapSet, configMapNames) := st in
  if negb (default false (configMapSet !! name)) then
    (<[name := true]> configMapSet, configMapNames ++ [name])
  else st.

(** The set holds exactly the names emitted so far. *)
Definition seenExactly (st : ExtractState) : Prop :=
  forall name, default false (fst st !! name) = true <-> In name (snd st).

Definition unseen (names : list string) (name : string) : bool :=
  negb (existsb (String.eqb name) names).

Definition registersReplicaSetKind (scheme : Scheme) : Prop :=
  Forall (fun gvk => gvk_Kind gvk = "ReplicaSet") (ReplicaSetKinds scheme).

(** Nothing is left to do for a name: its ConfigMap is not there, or it
    already carries the reference, or writes are off. *)
Definition settled {W : Type} `{Client W} (r : ReplicaSetReconciler)
    (rs : ReplicaSet) (w : W) (name : string) : Prop :=
  match Get_ConfigMap w (Namespace (rs_Meta rs), name) with
  | inl err => IsNotFound err = true
  | inr cm => isOwnerReferencePresent cm rs || DryRun (Config r) = true
  end.

(** The outcomes of one referenced name, as the specification lists them,
    told by the calls made to the client. [handled r rs w name w'] is a
    name dealt with, after which the next name is due, from state [w] to
    state [w']: its ConfigMap is not found; or it already carries the
    reference; or writes are off; or the reference was added and the
    replace write went through. *)
Inductive handled {W : Type} `{Client W} (r : ReplicaSetReconciler)
    (rs : ReplicaSet) (w : W) (name : string) : W -> Prop :=
| handled_not_found (err : error) :
    Get_ConfigMap w (Namespace (rs_Meta rs), name) = inl err ->
    IsNotFound err = true ->
    handled r rs w name w
| handled_owned (cm : ConfigMap) :
    Get_ConfigMap w (Namespace (rs_Meta rs), name) = inr cm ->
    isOwnerReferencePresent cm rs = true ->
    handled r rs w name w
| handled_dry_run (cm : ConfigMap) :
    Get_ConfigMap w (Namespace (rs_Meta rs), name) = inr cm ->
    isOwnerReferencePresent cm rs = false ->
    DryRun (Config r) = true ->
    handled r rs w name w
| handled_written (cm cm' : ConfigMap) (w' : W) :
    Get_ConfigMap w (Namespace (rs_Meta rs), name) = inr cm ->
    isOwnerReferencePresent cm rs = false ->
    DryRun (Config r) = false ->
    SetOwnerReference rs cm (r_Scheme r) = inr cm' ->
    Update w cm' = (w', None) ->
    handled r rs w name w'.

(** [failed r rs w name w' err] is a name that fails with [err], leaving
    state [w']: the fetch reports an error other than not-found; or the
    reference cannot be built; or the replace write reports an error. *)
Inductive failed {W : Type} `{Client W} (r : ReplicaSetReconciler)
    (rs : ReplicaSet) (w : W) (name : string) : W -> error -> Prop :=
| failed_fetch (err : error) :
    Get_ConfigMap w (Namespace (rs_Meta rs), name) = inl err ->
    IsNotFound err = false ->
    failed r rs w name w err
| failed_reference (cm : ConfigMap) (err : error) :
    Get_ConfigMap w (Namespace (rs_Meta rs), name) = inr cm ->
    isOwnerReferencePresent cm rs = false ->
    DryRun (Config r) = false ->
    SetOwnerReference rs cm (r_Scheme r) = inl err ->
    failed r rs w name w err
| failed_persist (cm cm' : ConfigMap) (w' : W) (err : error) :
    Get_ConfigMap w (Namespace (rs_Meta rs), name) = inr cm ->
    isOwnerReferencePresent cm rs = false ->
    DryRun (Config r) = false ->
    SetOwnerReference rs cm (r_Scheme r) = inr cm' ->
    Update w cm' = (w', Some err) ->
    failed r rs w name w' err.

(** The names of a list handled one after the other, each from the state
    the one before it left. *)
Inductive handledAll {W : Type} `{Client W} (r : ReplicaSetReconciler)
    (rs : ReplicaSet) : W -> list string -> W -> Prop :=
| handledAll_nil (w : W) : handledAll r rs w [] w
| handledAll_cons (w w1 w2 : W) (name : string) (names : list string) :
    handled r rs w name w1 ->
    handledAll r rs w1 names w2 ->
    handledAll r rs w (name :: names) w2.

(* ===================================================================== *)
(** * A sample cluster: the end-to-end scenario of the specification      *)
(* ===================================================================== *)

(** ReplicaSet [app-rs] in namespace [default], unique id [u1], whose one
    primary container mounts the volume [config-vol] bound to the
    ConfigMap [app-config]. *)
Definition appConfig : ConfigMap :=
  {| cm_Meta := {| Name := "app-config"; Namespace := "default"; UID := "c1";
                   CreationTimestamp := 50%Z; OwnerReferences := [] |};
     cm_Data := {[ "config.yaml" := "app: myapp" ]} |}.

Definition appPodSpec : PodSpec :=
  {| Volumes := [ {| vol_Name := "config-vol";
                     vol_ConfigMap := Some {| cmvs_Name := "app-config" |} |} ];
     InitContainers := [];
     Containers := [ {| c_Name := "app";
                        VolumeMounts := [ {| vm_Name := "config-vol" |} ] |} ] |}.

Definition appRS (created : Time) : ReplicaSet :=
  {| rs_Meta := {| Name := "app-rs"; Namespace := "default"; UID := "u1";
                   CreationTimestamp := created; OwnerReferences := [] |};
     rs_Spec := {| Template := {| tpl_Spec := appPodSpec |} |} |}.

Definition noFault : NamespacedName -> option error := fun _ => None.

Definition sampleCluster (created : Time) : Cluster :=
  {| replicaSets := {[ ("default", "app-rs") := appRS created ]};
     configMaps := {[ ("default", "app-config") := appConfig ]};
     getReplicaSetFault := noFault;
     getConfigMapFault := noFault;
     updateFault := noFault |}.

Definition appsV1Scheme : Scheme :=
  {| ReplicaSetKinds := [ {| gvk_Group := "apps"; gvk_Version := "v1";
                             gvk_Kind := "ReplicaSet" |} ] |}.

(** A reconciler that started watching at instant 100. *)
Definition sampleReconciler (patterns : list string) (dryRun : bool)
  : ReplicaSetReconciler :=
  {| r_Scheme := appsV1Scheme;
     Config := {| NamespaceRegex := patterns; DryRun := dryRun;
                  Debug := false; Trace := false;
                  namespaceRegexStr := None |};
     StartTime := 100%Z |}.

Definition appRequest : NamespacedName := ("default", "app-rs").

Definition appOwnerReference : OwnerReference :=
  {| ref_APIVersion := "apps/v1"; ref_Kind := "ReplicaSet";
     ref_Name := "app-rs"; ref_UID := "u1";
     ref_Controller := None; ref_BlockOwnerDeletion := None |}.

Definition internalError : error := StatusError "InternalError".
Definition conflict : error := StatusError "Conflict".

(** The sample cluster with calls that fail. *)
Definition faultyCluster (getReplicaSet getConfigMap update : option error)
  : Cluster :=
  {| replicaSets := {[ ("default", "app-rs") := appRS 150%Z ]};
     configMaps := {[ ("default", "app-config") := appConfig ]};
     getReplicaSetFault := fun _ => getReplicaSet;
     getConfigMapFault := fun _ => getConfigMap;
     updateFault := fun _ => update |}.

(** A reconciler with no namespace patterns and writes on. *)
Definition sampleLive : ReplicaSetReconciler := sampleReconciler [] false.

Definition sampleEnv : gmap string string :=
  {[ "NAMESPACE_REGEX" := " ^kube-.* ,^default$ " ]}.

Definition dryRunOffEnv : gmap string string := {[ "DRY_RUN" := "false" ]}.

Definition sampleFlags : Flags :=
  {| flag_namespace_regex := "^prod-.*"; flag_dry_run := true;
     flag_debug := false; flag_trace := true |}.

(** A pod template with two primary containers and an init container:
    [app-config] is mounted three times through two volumes, [init-config]
    once by the init container, the volume [scratch] has no ConfigMap, and
    the volume [orphan-vol] of [unused-config] is mounted by nobody. *)
Definition richPodSpec : PodSpec :=
  {| Volumes :=
       [ {| vol_Name := "config-vol";
            vol_ConfigMap := Some {| cmvs_Name := "app-config" |} |};
         {| vol_Name := "scratch"; vol_ConfigMap := None |};
         {| vol_Name := "init-vol";
            vol_ConfigMap := Some {| cmvs_Name := "init-config" |} |};
         {| vol_Name := "orphan-vol";
            vol_ConfigMap := Some {| cmvs_Name := "unused-config" |} |};
         {| vol_Name := "again-vol";
            vol_ConfigMap := Some {| cmvs_Name := "app-config" |} |} ];
     InitContainers :=
       [ {| c_Name := "init";
            VolumeMounts := [ {| vm_Name := "again-vol" |};
                              {| vm_Name := "init-vol" |} ] |} ];
     Containers :=
       [ {| c_Name := "app";
            VolumeMounts := [ {| vm_Name := "scratch" |};
                              {| vm_Name := "config-vol" |} ] |};
         {| c_Name := "sidecar";
            VolumeMounts := [ {| vm_Name := "config-vol" |};
                              {| vm_Name := "missing-vol" |} ] |} ] |}.

Definition richRS : ReplicaSet :=
  {| rs_Meta := {| Name := "rich-rs"; Namespace := "default"; UID := "u2";
                   CreationTimestamp := 150%Z; OwnerReferences := [] |};
     rs_Spec := {| Template := {| tpl_Spec := richPodSpec |} |} |}.

(* ===================================================================== *)
(** * Notions for the properties of the configuration and the loops       *)
(* ===================================================================== *)

(** How often a byte occurs in a string. *)
Fixpoint countByte (c : ascii) (s : string) : nat :=
  match s with
  | EmptyString => 0
  | String x s' => (if Ascii.eqb x c then 1 else 0) + countByte c s'
  end.

(** The byte occurs in the string. *)
Definition hasByte (c : ascii) (s : string) : Prop :=
  In c (list_ascii_of_string s).

(** The source the patterns are taken from: NAMESPACE_REGEX when it is
    set, the flag otherwise. *)
Definition patternSource (env : gmap string string) (f : Flags) : string :=
  if String.eqb (Getenv env "NAMESPACE_REGEX") "" then flag_namespace_regex f
  else Getenv env "NAMESPACE_REGEX".

(** A command line without any of the four flags. *)
Definition quietFlags : Flags :=
  {| flag_namespace_regex := ""; flag_dry_run := false;
     flag_debug := false; flag_trace := false |}.

(** The ConfigMap a volume is backed by, [""] standing for none. *)
Definition volumeConfigMapName (volume : Volume) : string :=
  match vol_ConfigMap volume with
  | Some src => cmvs_Name src
  | None => ""
  end.

(** The rich template with its volumes reversed, its containers swapped
    and the init container moved among the primary ones. *)
Definition swappedRS : ReplicaSet :=
  {| rs_Meta := rs_Meta richRS;
     rs_Spec := {| Template := {| tpl_Spec :=
       {| Volumes := rev (Volumes richPodSpec);
          InitContainers := [];
          Containers := InitContainers richPodSpec
                        ++ rev (Containers richPodSpec) |} |} |} |}.

(** The sample cluster with a second ConfigMap of the same name in
    another namespace. *)
Definition twoNamespaces : Cluster :=
  {| replicaSets := {[ ("default", "app-rs") := appRS 150%Z ]};
     configMaps := <[ ("kube-system", "app-config") := appConfig ]>
                     {[ ("default", "app-config") := appConfig ]};
     getReplicaSetFault := noFault;
     getConfigMapFault := noFault;
     updateFault := noFault |}.

Definition initConfig : ConfigMap :=
  {| cm_Meta := {| Name := "init-config"; Namespace := "default"; UID := "c2";
                   CreationTimestamp := 60%Z; OwnerReferences := [] |};
     cm_Data := {[ "init.yaml" := "init: true" ]} |}.

(** A cluster holding [richRS] and its two ConfigMaps, where every replace
    write to [init-config] is answered with a conflict. *)
Definition richCluster : Cluster :=
  {| replicaSets := {[ ("default", "rich-rs") := richRS ]};
     configMaps := <[ ("default", "init-config") := initConfig ]>
                     {[ ("default", "app-config") := appConfig ]};
     getReplicaSetFault := noFault;
     getConfigMapFault := noFault;
     updateFault := fun k =>
       if String.eqb (snd k) "init-config" then Some conflict else None |}.

Definition richRequest : NamespacedName := ("default", "rich-rs").

(** [app-config] once the reference to [app-rs] is written. *)
Definition ownedAppConfig : ConfigMap :=
  setOwnerReferences appConfig [appOwnerReference].

(** A workload whose one container mounts four ConfigMaps, in this
    order: [gone-config], [app-config], [init-config], [late-config]. *)
Definition widePodSpec : PodSpec :=
  {| Volumes :=
       [ {| vol_Name := "gone-vol";
            vol_ConfigMap := Some {| cmvs_Name := "gone-config" |} |};
         {| vol_Name := "config-vol";
            vol_ConfigMap := Some {| cmvs_Name := "app-config" |} |};
         {| vol_Name := "init-vol";
            vol_ConfigMap := Some {| cmvs_Name := "init-config" |} |};
         {| vol_Name := "late-vol";
            vol_ConfigMap := Some {| cmvs_Name := "late-config" |} |} ];
     InitContainers := [];
     Containers :=
       [ {| c_Name := "app";
            VolumeMounts := [ {| vm_Name := "gone-vol" |};
                              {| vm_Name := "config-vol" |};
                              {| vm_Name := "init-vol" |};
                              {| vm_Name := "late-vol" |} ] |} ] |}.

Definition wideRS : ReplicaSet :=
  {| rs_Meta := {| Name := "wide-rs"; Namespace := "default"; UID := "u3";
                   CreationTimestamp := 150%Z; OwnerReferences := [] |};
     rs_Spec := {| Template := {| tpl_Spec := widePodSpec |} |} |}.

Definition wideRequest : NamespacedName := ("default", "wide-rs").

Definition lateConfig : ConfigMap :=
  {| cm_Meta := {| Name := "late-config"; Namespace := "default"; UID := "c3";
                   CreationTimestamp := 70%Z; OwnerReferences := [] |};
     cm_Data := {[ "late.yaml" := "late: true" ]} |}.

Definition wideOwnerReference : OwnerReference :=
  {| ref_APIVersion := "apps/v1"; ref_Kind := "ReplicaSet";
     ref_Name := "wide-rs"; ref_UID := "u3";
     ref_Controller := None; ref_BlockOwnerDeletion := None |}.

(** A ConfigMap once the reference to [wide-rs] is written. *)
Definition wideOwned (cm : ConfigMap) : ConfigMap :=
  setOwnerReferences cm [wideOwnerReference].

(** Replace writes to [init-config] are answered with a conflict. *)
Definition conflictOnInit : NamespacedName -> option error :=
  fun k => if String.eqb (snd k) "init-config" then Some conflict else None.

(** A cluster holding [wideRS] and three of its four ConfigMaps;
    [gone-config] is not there. *)
Definition wideCluster (app init late : ConfigMap)
    (update : NamespacedName -> option error) : Cluster :=
  {| replicaSets := {[ ("default", "wide-rs") := wideRS ]};
     configMaps := <[ ("default", "late-config") := late ]>
                     (<[ ("default", "init-config") := init ]>
                        {[ ("default", "app-config") := app ]});
     getReplicaSetFault := noFault;
     getConfigMapFault := noFault;
     updateFault := update |}.

(* ===================================================================== *)
(** * Running the embedding                                               *)
(* ===================================================================== *)

Example Split_ex : Split "a,,b," comma = ["a"; ""; "b"; ""].
Proof. reflexivity. Qed.

Example TrimSpace_ex :
  TrimSpace (" " ++ bytes [9; 194; 160] ++ "^kube-.* x"
             ++ bytes [226; 128; 168; 10])
  = "^kube-.* x".
Proof. reflexivity. Qed.

Example MatchString_ex :
  map (fun p => MatchString (fst p) (snd p))
      [("^kube-.*", "kube-system"); ("^kube-.*", "default");
       ("kube", "my-kube-ns"); ("", "default"); ("(", "default");
       ("a**", "a"); ("^(ab|cd)+$", "abcdab")]
  = [(true, None); (false, None); (true, None); (true, None);
     (false, Some (PlainError "missing closing )"));
     (false, Some (PlainError "invalid nested repetition operator"));
     (true, None)].
Proof. reflexivity. Qed.

(* ===================================================================== *)
(** * The Namespace Filter                                                *)
(* ===================================================================== *)

Section NamespaceFilter.
Context `{Regexp}.

Lemma matchAnyPattern_true (patterns : list string) (namespace : string) :
  matchAnyPattern patterns namespace = true
  <-> exists pattern,
        In pattern patterns /\ MatchString pattern namespace = (true, None).
Proof.
  induction patterns as [|p rest IH]; simpl.
  - split; [discriminate | intros (? & [] & _)].
  - destruct (MatchString p namespace) as [matched err] eqn:E.
    destruct err as [e|]; [|destruct matched].
    + rewrite IH. split.
      * intros (q & Hq & Hm). exists q. auto.
      * intros (q & [<-|Hq] & Hm); [congruence | eauto].
    + split; [intros _; exists p; auto | reflexivity].
    + rewrite IH. split.
      * intros (q & Hq & Hm). exists q. auto.
      * intros (q & [<-|Hq] & Hm); [congruence | eauto].
Qed.


Lemma shouldProcessNamespace_true (r : ReplicaSetReconciler)
    (namespace : string) :
  shouldProcessNamespace r namespace = true
  <-> NamespaceRegex (Config r) = []
      \/ exists pattern,
           In pattern (NamespaceRegex (Config r))
           /\ MatchString pattern namespace = (true, None).
Proof.
  unfold shouldProcessNamespace.
  destruct (NamespaceRegex (Config r)) as [|p rest] eqn:E.
  - simpl. split; auto.
  - change (length (p :: rest) =? 0)%nat with false. cbv iota.
    rewrite matchAnyPattern_true. split; [auto|].
    intros [Hnil|Hex]; [discriminate | exact Hex].
Qed.

End NamespaceFilter.

(** C6. The Namespace Filter answers true exactly when the pattern list is
    empty or the namespace matches one of its patterns (the match being
    what [regexp.MatchString] reports without error); and when it answers
    false, [Reconcile] returns the empty result and no error and leaves
    the cluster as it found it. *)
Theorem namespace_filter_decides `{Regexp} {W : Type} `{Client W}
    (r : ReplicaSetReconciler) (req : NamespacedName) (w : W) :
  (NamespaceRegex (Config r) = [] ->
   shouldProcessNamespace r (req_Namespace req) = true)
  /\ (NamespaceRegex (Config r) <> [] ->
      (shouldProcessNamespace r (req_Namespace req) = true
       <-> exists pattern,
             In pattern (NamespaceRegex (Config r))
             /\ MatchString pattern (req_Namespace req) = (true, None)))
  /\ (shouldProcessNamespace r (req_Namespace req) = false ->
      Reconcile r req w = (w, (emptyResult, None))).
Proof.
  split; [|split].
  - intros Hnil. apply shouldProcessNamespace_true. now left.
  - intros Hne. rewrite shouldProcessNamespace_true. split; [|auto].
    intros [Hnil|Hex]; [contradiction | exact Hex].
  - intros Hout. unfold Reconcile. now rewrite Hout.
Qed.

(** The filter at work: with the one pattern [^kube-.*], a request in
    namespace [default] is out of scope and reconciling it changes
    nothing. *)
Lemma namespace_filter_decides_witness :
  shouldProcessNamespace (sampleReconciler ["^kube-.*"] false) "default" = false
  /\ Reconcile (sampleReconciler ["^kube-.*"] false) appRequest
               (sampleCluster 150%Z)
     = (sampleCluster 150%Z, (emptyResult, None)).
Proof.
  split; [reflexivity|].
  apply (namespace_filter_decides (sampleReconciler ["^kube-.*"] false)
           appRequest (sampleCluster 150%Z)).
  reflexivity.
Defined.



(* ===================================================================== *)
(** * Splitting and trimming the pattern input                            *)
(* ===================================================================== *)

Lemma Split_nonempty (s : string) (sep : ascii) : Split s sep <> [].
Proof.
  destruct s as [|c s]; simpl; [discriminate|].
  destruct (Ascii.eqb c sep); [discriminate|].
  destruct (Split s sep); discriminate.
Qed.

(** Cutting at a separator cuts the list of pieces in two. *)
Lemma Split_app_sep (s1 s2 : string) (sep : ascii) :
  Split (s1 ++ String sep s2)%string sep = Split s1 sep ++ Split s2 sep.
Proof.
  induction s1 as [|c s1 IH]; simpl.
  - now rewrite Ascii.eqb_refl.
  - destruct (Ascii.eqb c sep); [now rewrite IH|].
    rewrite IH. pose proof (Split_nonempty s1 sep) as Hne.
    destruct (Split s1 sep); [contradiction | reflexivity].
Qed.

Lemma TrimSpace_empty : TrimSpace "" = "".
Proof. reflexivity. Qed.

Lemma strayComma_empty_pattern (input : string) :
  strayComma input -> In "" (splitPatterns input).
Proof.
  unfold splitPatterns.
  intros [[a ->] | [[a ->] | (a & b & ->)]]; apply in_map_iff; exists "";
    (split; [reflexivity|]).
  - change ("," ++ a)%string with ("" ++ String comma a)%string.
    rewrite Split_app_sep. simpl. now left.
  - change (a ++ ",")%string with (a ++ String comma "")%string.
    rewrite Split_app_sep. apply in_or_app. right. simpl. now left.
  - change (a ++ ",," ++ b)%string
      with (a ++ String comma (String comma b))%string.
    rewrite Split_app_sep. apply in_or_app. right. simpl. now left.
Qed.

(** The empty pattern compiles in the reference implementation and is
    found in every text. *)
Lemma fragment_empty_pattern (s : string) :
  MatchString (Regexp := FragmentRegexp) "" s = (true, None).
Proof. destruct s; reflexivity. Qed.

(** C10. Given that the empty regular expression matches every string, a
    pattern list that contains the empty pattern makes the Namespace
    Filter answer true for every namespace; and splitting an input with a
    leading, trailing or doubled comma produces just such a list. *)
Theorem empty_pattern_disables_filter `{Regexp} (r : ReplicaSetReconciler) :
  (forall s, MatchString "" s = (true, None)) ->
  (In "" (NamespaceRegex (Config r)) ->
   forall namespace, shouldProcessNamespace r namespace = true)
  /\ (forall input,
        strayComma input ->
        NamespaceRegex (Config r) = splitPatterns input ->
        forall namespace, shouldProcessNamespace r namespace = true).
Proof.
  intros Hempty.
  assert (Hin : In "" (NamespaceRegex (Config r)) ->
                forall namespace, shouldProcessNamespace r namespace = true).
  { intros Hmem namespace. apply shouldProcessNamespace_true. right.
    exists "". split; [exact Hmem | apply Hempty]. }
  split; [exact Hin|].
  intros input Hstray Hcfg. apply Hin. rewrite Hcfg.
  now apply strayComma_empty_pattern.
Qed.

Lemma empty_pattern_disables_filter_witness :
  In "" (splitPatterns "^kube-.*,")
  /\ shouldProcessNamespace
       (sampleReconciler (splitPatterns "^kube-.*,") false) "default" = true.
Proof.
  split; [right; left; reflexivity|].
  apply (empty_pattern_disables_filter
           (sampleReconciler (splitPatterns "^kube-.*,") false)
           fragment_empty_pattern).
  right. left. reflexivity.
Defined.

(* ===================================================================== *)
(** * The Event Admission Predicate                                       *)
(* ===================================================================== *)

(** C8. The predicate admits an event exactly when it is a create event
    carrying a ReplicaSet whose creation time is strictly after the start
    time; update, delete and generic events and create events with any
    other payload are rejected. *)
Theorem admission_predicate_spec (r : ReplicaSetReconciler) (e : Event) :
  admits (replicaSetPredicate r) e = true
  <-> exists rs,
        e = CreateEvent (ReplicaSetObject rs)
        /\ (StartTime r < CreationTimestamp (rs_Meta rs))%Z.
Proof.
  split.
  - destruct e as [o | o n | o u | o]; simpl; try discriminate.
    destruct o as [rs | cm | kind meta]; try discriminate.
    unfold After. intros Hlt. exists rs. split; [reflexivity|].
    now apply Z.ltb_lt.
  - intros (rs & -> & Hlt). simpl. unfold After. now apply Z.ltb_lt.
Qed.

(* ===================================================================== *)
(** * The Reference Extractor                                             *)
(* ===================================================================== *)

Lemma fold_left_flat_map {A B C : Type} (f : A -> C -> A) (g : B -> list C)
    (l : list B) (a : A) :
  fold_left f (flat_map g l) a
  = fold_left (fun acc x => fold_left f (g x) acc) l a.
Proof.
  revert a. induction l as [|x l IH]; intros a; simpl; [reflexivity|].
  now rewrite fold_left_app, IH.
Qed.

Lemma fold_left_ext_eq {A B : Type} (f g : A -> B -> A) (l : list B) (a : A) :
  (forall acc x, f acc x = g acc x) -> fold_left f l a = fold_left g l a.
Proof.
  intros Hext. revert a. induction l as [|x l IH]; intros a; simpl;
    [reflexivity|]. now rewrite Hext, IH.
Qed.

Lemma visitMount_emit (volumes : list Volume) (st : ExtractState)
    (volumeMount : VolumeMount) :
  visitMount volumes st volumeMount
  = fold_left emit (mountDiscoveries volumes volumeMount) st.
Proof.
  unfold visitMount, mountDiscoveries. rewrite fold_left_flat_map.
  apply fold_left_ext_eq. intros [set names] volume.
  unfold visitVolume, emit.
  destruct (String.eqb (vol_Name volume) (vm_Name volumeMount));
    destruct (vol_ConfigMap volume) as [src|]; reflexivity.
Qed.

Lemma visitContainer_emit (volumes : list Volume) (st : ExtractState)
    (container : Container) :
  visitContainer volumes st container
  = fold_left emit (containerDiscoveries volumes container) st.
Proof.
  unfold visitContainer, containerDiscoveries. rewrite fold_left_flat_map.
  apply fold_left_ext_eq. intros acc vm. apply visitMount_emit.
Qed.

(** The two loops of the extractor are one pass of [emit] over the
    discoveries. *)
Lemma extractConfigMapVolumes_emit (rs : ReplicaSet) :
  extractConfigMapVolumes rs = snd (fold_left emit (discoveries rs) (∅, [])).
Proof.
  unfold extractConfigMapVolumes, discoveries.
  rewrite flat_map_app, fold_left_app, !fold_left_flat_map.
  f_equal.
  rewrite (fold_left_ext_eq _ _ (InitContainers _) _
             (visitContainer_emit (Volumes (tpl_Spec (Template (rs_Spec rs)))))).
  f_equal.
  apply fold_left_ext_eq. apply visitContainer_emit.
Qed.

Lemma unseen_false (names : list string) (name : string) :
  unseen names name = false <-> In name names.
Proof.
  unfold unseen. rewrite negb_false_iff, existsb_exists. split.
  - intros (x & Hx & Heq). apply String.eqb_eq in Heq. now subst.
  - intros Hin. exists name. split; [exact Hin | apply String.eqb_refl].
Qed.

Lemma unseen_true (names : list string) (name : string) :
  unseen names name = true <-> ~ In name names.
Proof.
  rewrite <- unseen_false. destruct (unseen names name); split; congruence.
Qed.

Lemma filter_filter_and {A : Type} (f g : A -> bool) (l : list A) :
  List.filter f (List.filter g l) = List.filter (fun y => f y && g y) l.
Proof.
  induction l as [|x l IH]; simpl; [reflexivity|].
  destruct (g x); simpl.
  - rewrite andb_true_r. destruct (f x); now rewrite IH.
  - now rewrite andb_false_r.
Qed.

Lemma emit_fold (l : list string) (st : ExtractState) :
  seenExactly st ->
  snd (fold_left emit l st)
  = snd st ++ List.filter (unseen (snd st)) (firstOccurrences l).
Proof.
  revert st. induction l as [|x l IH]; intros [set names] Hseen; simpl.
  - now rewrite app_nil_r.
  - destruct (default false (set !! x)) eqn:Hx; simpl.
    + (* already seen: nothing is emitted *)
      rewrite (IH _ Hseen). simpl. f_equal.
      assert (Hin : In x names) by (apply (Hseen x); exact Hx).
      apply unseen_false in Hin. rewrite Hin.
      rewrite filter_filter_and. apply List.filter_ext_in.
      intros y _. destruct (unseen names y) eqn:Hy; simpl; [|reflexivity].
      symmetry. apply negb_true_iff. apply String.eqb_neq.
      intros ->. congruence.
    + (* first discovery: appended and recorded *)
      assert (Hout : unseen names x = true).
      { apply unseen_true. intros Hin. apply (Hseen x) in Hin.
        simpl in Hin. congruence. }
      rewrite IH.
      * simpl. rewrite Hout, <- app_assoc. simpl. do 2 f_equal.
        rewrite filter_filter_and. apply List.filter_ext_in.
        intros y _. unfold unseen. rewrite existsb_app. simpl.
        rewrite orb_false_r, negb_orb, andb_comm. reflexivity.
      * intros name. simpl. rewrite in_app_iff. simpl.
        destruct (String.eqb_spec x name) as [->|Hne].
        -- rewrite lookup_insert_eq. simpl. tauto.
        -- rewrite lookup_insert_ne by congruence.
           rewrite (Hseen name). simpl. tauto.
Qed.

Lemma firstOccurrences_In (l : list string) (name : string) :
  In name (firstOccurrences l) <-> In name l.
Proof.
  induction l as [|x l IH]; simpl; [tauto|].
  rewrite List.filter_In, IH, negb_true_iff, String.eqb_neq.
  destruct (String.eqb_spec x name) as [->|Hne]; [tauto|].
  split; [tauto|]. intros [Heq|Hin]; [contradiction|].
  right. split; [exact Hin | congruence].
Qed.

Lemma firstOccurrences_NoDup (l : list string) : List.NoDup (firstOccurrences l).
Proof.
  induction l as [|x l IH]; simpl; constructor.
  - rewrite List.filter_In, negb_true_iff, String.eqb_neq. tauto.
  - now apply List.NoDup_filter.
Qed.

Lemma extractConfigMapVolumes_firstOccurrences (rs : ReplicaSet) :
  extractConfigMapVolumes rs = firstOccurrences (discoveries rs).
Proof.
  rewrite extractConfigMapVolumes_emit, emit_fold.
  - simpl. apply forallb_filter_id. apply forallb_forall. reflexivity.
  - intros name. simpl. rewrite lookup_empty. simpl. split; [discriminate | tauto].
Qed.

Lemma discoveries_In (rs : ReplicaSet) (name : string) :
  In name (discoveries rs)
  <-> exists volume,
        In volume (Volumes (tpl_Spec (Template (rs_Spec rs))))
        /\ vol_ConfigMap volume = Some {| cmvs_Name := name |}
        /\ mounted rs volume.
Proof.
  unfold discoveries, containerDiscoveries, mountDiscoveries, mounted.
  set (spec := tpl_Spec (Template (rs_Spec rs))).
  rewrite in_flat_map. split.
  - intros (container & Hc & Hin). apply in_flat_map in Hin.
    destruct Hin as (vm & Hvm & Hin). apply in_flat_map in Hin.
    destruct Hin as (volume & Hv & Hin).
    destruct (vol_ConfigMap volume) as [[n]|] eqn:Hsrc; [|contradiction].
    destruct (String.eqb_spec (vol_Name volume) (vm_Name vm)) as [Heq|];
      [|contradiction].
    destruct Hin as [<-|[]]. exists volume. repeat split; try assumption.
    exists container, vm. auto.
  - intros (volume & Hv & Hsrc & container & vm & Hc & Hvm & Heq).
    exists container. split; [exact Hc|].
    apply in_flat_map. exists vm. split; [exact Hvm|].
    apply in_flat_map. exists volume. split; [exact Hv|].
    rewrite Hsrc, Heq, String.eqb_refl. now left.
Qed.

(** C2. The Reference Extractor returns the first occurrences, in order,
    of the names discovered by walking the primary containers, then the
    init containers, each container's mounts in order and, for each mount,
    the ConfigMap-backed volumes of that name; no name appears twice; a
    name is returned exactly when some ConfigMap-backed volume carrying it
    is mounted by a primary or init container; so a name whose volumes are
    all unmounted is never returned. *)
Theorem extractConfigMapVolumes_spec (rs : ReplicaSet) :
  extractConfigMapVolumes rs = firstOccurrences (discoveries rs)
  /\ List.NoDup (extractConfigMapVolumes rs)
  /\ (forall name,
        In name (extractConfigMapVolumes rs)
        <-> exists volume,
              In volume (Volumes (tpl_Spec (Template (rs_Spec rs))))
              /\ vol_ConfigMap volume = Some {| cmvs_Name := name |}
              /\ mounted rs volume)
  /\ (forall name,
        (forall volume,
           In volume (Volumes (tpl_Spec (Template (rs_Spec rs)))) ->
           vol_ConfigMap volume = Some {| cmvs_Name := name |} ->
           ~ mounted rs volume) ->
        ~ In name (extractConfigMapVolumes rs)).
Proof.
  assert (Hiff : forall name,
             In name (extractConfigMapVolumes rs)
             <-> exists volume,
                   In volume (Volumes (tpl_Spec (Template (rs_Spec rs))))
                   /\ vol_ConfigMap volume = Some {| cmvs_Name := name |}
                   /\ mounted rs volume).
  { intros name.
    now rewrite extractConfigMapVolumes_firstOccurrences,
      firstOccurrences_In, discoveries_In. }
  split; [apply extractConfigMapVolumes_firstOccurrences|].
  split; [rewrite extractConfigMapVolumes_firstOccurrences;
          apply firstOccurrences_NoDup|].
  split; [exact Hiff|].
  intros name Hnone Hin. apply Hiff in Hin.
  destruct Hin as (volume & Hv & Hsrc & Hm). exact (Hnone volume Hv Hsrc Hm).
Qed.

(* ===================================================================== *)
(** * The Ownership Reconciler against any client                         *)
(* ===================================================================== *)

Section AnyClient.
Context `{Regexp} {W : Type} `{Client W}.

Lemma processConfigMap_dry_run (r : ReplicaSetReconciler)
    (namespace name : string) (rs : ReplicaSet) (w : W) :
  DryRun (Config r) = true ->
  processConfigMap r namespace name rs w = (w, None)
  \/ exists err, processConfigMap r namespace name rs w = (w, Some err).
Proof.
  intros Hdry. unfold processConfigMap.
  destruct (Get_ConfigMap w (namespace, name)) as [err|cm].
  - destruct (IsNotFound err); eauto.
  - destruct (isOwnerReferencePresent cm rs); [now left|].
    rewrite Hdry. now left.
Qed.

Lemma processConfigMaps_dry_run (r : ReplicaSetReconciler) (rs : ReplicaSet)
    (names : list string) (w : W) :
  DryRun (Config r) = true ->
  fst (processConfigMaps r rs names w) = w.
Proof.
  intros Hdry. induction names as [|name rest IH]; simpl; [reflexivity|].
  destruct (processConfigMap_dry_run r (Namespace (rs_Meta rs)) name rs w Hdry)
    as [-> | [err ->]]; [exact IH | reflexivity].
Qed.

Lemma Reconcile_dry_run (r : ReplicaSetReconciler) (req : NamespacedName)
    (w : W) :
  DryRun (Config r) = true -> fst (Reconcile r req w) = w.
Proof.
  intros Hdry. unfold Reconcile.
  destruct (shouldProcessNamespace r (req_Namespace req)); [|reflexivity].
  simpl negb. cbv iota.
  destruct (Get_ReplicaSet w req) as [err|rs].
  - destruct (IsNotFound err); reflexivity.
  - cbv zeta.
    destruct (Before (CreationTimestamp (rs_Meta rs)) (StartTime r));
      [reflexivity|].
    destruct (length (extractConfigMapVolumes rs) =? 0)%nat; [reflexivity|].
    pose proof (processConfigMaps_dry_run r rs (extractConfigMapVolumes rs)
                  w Hdry) as Hloop.
    destruct (processConfigMaps r rs (extractConfigMapVolumes rs) w).
    exact Hloop.
Qed.

End AnyClient.

(** C5. With dry-run enabled no reconciliation changes anything: for every
    client, a [Reconcile] and any sequence of them leave the state they
    started from. The state is whatever the client makes of it, the
    journal of the replace writes asked for included, so no replace write
    is made and no ownership reference is added. *)
Theorem dry_run_invariance `{Regexp} {W : Type} `{Client W}
    (r : ReplicaSetReconciler) :
  DryRun (Config r) = true ->
  (forall req w, fst (Reconcile r req w) = w)
  /\ (forall reqs w, ReconcileAll r reqs w = w).
Proof.
  intros Hdry. split.
  - intros req w. now apply Reconcile_dry_run.
  - intros reqs. unfold ReconcileAll.
    induction reqs as [|req reqs IH]; intros w; simpl; [reflexivity|].
    now rewrite Reconcile_dry_run, IH.
Qed.

Lemma dry_run_invariance_witness :
  DryRun (Config (sampleReconciler [] true)) = true
  /\ ReconcileAll (sampleReconciler [] true) [appRequest; appRequest]
       (journaled (sampleCluster 150%Z))
     = journaled (sampleCluster 150%Z)
  /\ journal (ReconcileAll sampleLive [appRequest; appRequest]
                (journaled (sampleCluster 150%Z)))
     = [setOwnerReferences appConfig [appOwnerReference]].
Proof.
  split; [reflexivity|]. split; [|reflexivity].
  apply (dry_run_invariance (sampleReconciler [] true)). reflexivity.
Defined.

Section LoopOutcomes.
Context `{Regexp} {W : Type} `{Client W}.
Variable r : ReplicaSetReconciler.
Variable rs : ReplicaSet.

Lemma processConfigMap_handled (w w' : W) (name : string) :
  processConfigMap r (Namespace (rs_Meta rs)) name rs w = (w', None)
  <-> handled r rs w name w'.
Proof.
  unfold processConfigMap. split.
  - destruct (Get_ConfigMap w (Namespace (rs_Meta rs), name))
      as [e|cm] eqn:Hget.
    { destruct (IsNotFound e) eqn:Hnf; [|discriminate].
      intros [= <-]. eapply handled_not_found; eauto. }
    destruct (isOwnerReferencePresent cm rs) eqn:Hown.
    { intros [= <-]. eapply handled_owned; eauto. }
    destruct (DryRun (Config r)) eqn:Hdry.
    { intros [= <-]. eapply handled_dry_run; eauto. }
    destruct (SetOwnerReference rs cm (r_Scheme r)) as [e|cm'] eqn:Hset;
      [discriminate|].
    intros Hupd. eapply handled_written; eauto.
  - intros [e Hget Hnf|cm Hget Hown|cm Hget Hown Hdry
            |cm cm' w1 Hget Hown Hdry Hset Hupd]; rewrite Hget.
    + now rewrite Hnf.
    + now rewrite Hown.
    + now rewrite Hown, Hdry.
    + now rewrite Hown, Hdry, Hset.
Qed.

Lemma processConfigMap_failed (w w' : W) (name : string) (err : error) :
  processConfigMap r (Namespace (rs_Meta rs)) name rs w = (w', Some err)
  <-> failed r rs w name w' err.
Proof.
  unfold processConfigMap. split.
  - destruct (Get_ConfigMap w (Namespace (rs_Meta rs), name))
      as [e|cm] eqn:Hget.
    { destruct (IsNotFound e) eqn:Hnf; [discriminate|].
      intros [= <- <-]. eapply failed_fetch; eauto. }
    destruct (isOwnerReferencePresent cm rs) eqn:Hown; [discriminate|].
    destruct (DryRun (Config r)) eqn:Hdry; [discriminate|].
    destruct (SetOwnerReference rs cm (r_Scheme r)) as [e|cm'] eqn:Hset.
    { intros [= <- <-]. eapply failed_reference; eauto. }
    intros Hupd. eapply failed_persist; eauto.
  - intros [e Hget Hnf|cm e Hget Hown Hdry Hset
            |cm cm' w1 e Hget Hown Hdry Hset Hupd]; rewrite Hget.
    + now rewrite Hnf.
    + now rewrite Hown, Hdry, Hset.
    + now rewrite Hown, Hdry, Hset.
Qed.

(** The loop ends without error exactly when every name was handled, one
    after the other. *)
Lemma processConfigMaps_handledAll (names : list string) (w w' : W) :
  processConfigMaps r rs names w = (w', None) <-> handledAll r rs w names w'.
Proof.
  split.
  - revert w. induction names as [|name rest IH]; intros w; simpl.
    + intros [= <-]. constructor.
    + destruct (processConfigMap r (Namespace (rs_Meta rs)) name rs w)
        as [w1 [e|]] eqn:Hstep; [discriminate|].
      intros Hloop. apply handledAll_cons with (w1 := w1);
        [now apply processConfigMap_handled | now apply IH].
  - induction 1 as [w|w w1 w2 name rest Hstep _ IH]; simpl; [reflexivity|].
    apply processConfigMap_handled in Hstep. now rewrite Hstep.
Qed.

(** The loop ends with an error exactly when the names split at one that
    failed with it, those before it handled and those after it never
    reached: the state returned is the one the failure left. *)
Lemma processConfigMaps_failed (names : list string) (w w' : W)
    (err : error) :
  processConfigMaps r rs names w = (w', Some err)
  <-> exists done name rest w1,
        names = done ++ name :: rest
        /\ handledAll r rs w done w1
        /\ failed r rs w1 name w' err.
Proof.
  split.
  - revert w. induction names as [|n0 rest0 IH]; intros w; simpl;
      [discriminate|].
    destruct (processConfigMap r (Namespace (rs_Meta rs)) n0 rs w)
      as [w1 [e|]] eqn:Hstep.
    + intros [= <- <-]. exists [], n0, rest0, w.
      split; [reflexivity|]. split; [constructor|].
      now apply processConfigMap_failed.
    + intros Hloop.
      destruct (IH _ Hloop) as (done & name & rest & w2 & -> & Hdone & Hfail).
      exists (n0 :: done), name, rest, w2.
      split; [reflexivity|]. split; [|exact Hfail].
      apply handledAll_cons with (w1 := w1); [|exact Hdone].
      now apply processConfigMap_handled.
  - intros (done & name & rest & w1 & -> & Hdone & Hfail).
    induction Hdone as [w|w wa wb n0 names0 Hstep _ IH]; simpl.
    + apply processConfigMap_failed in Hfail. now rewrite Hfail.
    + apply processConfigMap_handled in Hstep. rewrite Hstep.
      now apply IH.
Qed.

End LoopOutcomes.

Lemma Reconcile_loop `{Regexp} {W : Type} `{Client W}
    (r : ReplicaSetReconciler) (req : NamespacedName) (w : W)
    (rs : ReplicaSet) :
  shouldProcessNamespace r (req_Namespace req) = true ->
  Get_ReplicaSet w req = inr rs ->
  Before (CreationTimestamp (rs_Meta rs)) (StartTime r) = false ->
  Reconcile r req w
  = (fst (processConfigMaps r rs (extractConfigMapVolumes rs) w),
     (emptyResult,
      snd (processConfigMaps r rs (extractConfigMapVolumes rs) w))).
Proof.
  intros Hscope Hget Hnew. unfold Reconcile.
  rewrite Hscope. simpl negb. cbv iota. rewrite Hget. cbv zeta.
  rewrite Hnew.
  destruct (extractConfigMapVolumes rs) as [|name names] eqn:Hnames;
    [reflexivity|].
  change ((length (name :: names) =? 0)%nat) with false. cbv iota.
  now destruct (processConfigMaps r rs (name :: names) w).
Qed.

(** C4. Not-found is benign and every other failure is the result of the
    reconciliation, for every client. A workload fetch that reports
    not-found ends [Reconcile] with success and the state untouched; any
    other error of that fetch is returned. For a workload that was fetched
    (in scope, not older than the start time), [Reconcile] is decided by
    the outcomes of its referenced names, taken in order, each from the
    state the one before it left, where a name whose ConfigMap is not found
    counts as handled and the next name is due:
    - if every name is handled, [Reconcile] returns success and the state
      reached at the end;
    - if the names before some name are handled and that name fails, with
      a fetch error other than not-found or with an error of the replace
      write, wherever in the list it stands, [Reconcile] returns that error
      and the state the failure left, whatever names remain after it;
    - and conversely, a success of [Reconcile] means that every name was
      handled, and an error means that the names split in this way at the
      name that failed with it. *)
Theorem reconcile_error_handling `{Regexp} {W : Type} `{Client W}
    (r : ReplicaSetReconciler) (req : NamespacedName) (w : W) :
  (forall err,
      Get_ReplicaSet w req = inl err -> IsNotFound err = true ->
      Reconcile r req w = (w, (emptyResult, None)))
  /\ (forall err,
        shouldProcessNamespace r (req_Namespace req) = true ->
        Get_ReplicaSet w req = inl err -> IsNotFound err = false ->
        Reconcile r req w = (w, (emptyResult, Some err)))
  /\ (forall rs,
        shouldProcessNamespace r (req_Namespace req) = true ->
        Get_ReplicaSet w req = inr rs ->
        Before (CreationTimestamp (rs_Meta rs)) (StartTime r) = false ->
        (forall w',
            handledAll r rs w (extractConfigMapVolumes rs) w' ->
            Reconcile r req w = (w', (emptyResult, None)))
        /\ (forall done name rest w1 w' err,
              extractConfigMapVolumes rs = done ++ name :: rest ->
              handledAll r rs w done w1 ->
              failed r rs w1 name w' err ->
              Reconcile r req w = (w', (emptyResult, Some err)))
        /\ (forall w',
              Reconcile r req w = (w', (emptyResult, None)) ->
              handledAll r rs w (extractConfigMapVolumes rs) w')
        /\ (forall w' err,
              Reconcile r req w = (w', (emptyResult, Some err)) ->
              exists done name rest w1,
                extractConfigMapVolumes rs = done ++ name :: rest
                /\ handledAll r rs w done w1
                /\ failed r rs w1 name w' err)).
Proof.
  split; [|split].
  - intros err Hget Hnf. unfold Reconcile.
    destruct (shouldProcessNamespace r (req_Namespace req)); [|reflexivity].
    simpl. now rewrite Hget, Hnf.
  - intros err Hscope Hget Hnf. unfold Reconcile.
    rewrite Hscope. simpl. now rewrite Hget, Hnf.
  - intros rs Hscope Hget Hnew.
    rewrite (Reconcile_loop r req w rs Hscope Hget Hnew).
    split; [|split; [|split]].
    + intros w' Hall. apply processConfigMaps_handledAll in Hall.
      now rewrite Hall.
    + intros done name rest w1 w' err Hsplit Hdone Hfail.
      assert (Hloop : processConfigMaps r rs (extractConfigMapVolumes rs) w
                      = (w', Some err)).
      { apply processConfigMaps_failed. exists done, name, rest, w1. auto. }
      now rewrite Hloop.
    + intros w' Heq. apply processConfigMaps_handledAll.
      destruct (processConfigMaps r rs (extractConfigMapVolumes rs) w)
        as [w2 res]. simpl in Heq. congruence.
    + intros w' err Heq. apply processConfigMaps_failed.
      destruct (processConfigMaps r rs (extractConfigMapVolumes rs) w)
        as [w2 res]. simpl in Heq. congruence.
Qed.

Lemma reconcile_error_handling_witness :
  Reconcile sampleLive ("default", "gone-rs") (sampleCluster 150%Z)
  = (sampleCluster 150%Z, (emptyResult, None))
  /\ Reconcile sampleLive appRequest
       (faultyCluster (Some internalError) None None)
     = (faultyCluster (Some internalError) None None,
        (emptyResult, Some internalError))
  /\ Reconcile sampleLive wideRequest
       (wideCluster appConfig initConfig lateConfig noFault)
     = (wideCluster (wideOwned appConfig) (wideOwned initConfig)
          (wideOwned lateConfig) noFault,
        (emptyResult, None))
  /\ Reconcile sampleLive wideRequest
       (wideCluster appConfig initConfig lateConfig conflictOnInit)
     = (wideCluster (wideOwned appConfig) initConfig lateConfig
          conflictOnInit,
        (emptyResult, Some conflict))
  /\ Reconcile sampleLive appRequest
       (faultyCluster None (Some internalError) None)
     = (faultyCluster None (Some internalError) None,
        (emptyResult, Some internalError))
  /\ handledAll sampleLive wideRS
       (wideCluster appConfig initConfig lateConfig noFault)
       (extractConfigMapVolumes wideRS)
       (wideCluster (wideOwned appConfig) (wideOwned initConfig)
          (wideOwned lateConfig) noFault)
  /\ (exists done name rest w1,
        extractConfigMapVolumes wideRS = done ++ name :: rest
        /\ handledAll sampleLive wideRS
             (wideCluster appConfig initConfig lateConfig conflictOnInit)
             done w1
        /\ failed sampleLive wideRS w1 name
             (wideCluster (wideOwned appConfig) initConfig lateConfig
                conflictOnInit)
             conflict).
Proof.
  destruct (proj2 (proj2 (reconcile_error_handling sampleLive wideRequest
              (wideCluster appConfig initConfig lateConfig noFault)))
              wideRS) as (Hok & _ & Hok' & _); [reflexivity..|].
  destruct (proj2 (proj2 (reconcile_error_handling sampleLive wideRequest
              (wideCluster appConfig initConfig lateConfig conflictOnInit)))
              wideRS) as (_ & Hfail & _ & Hfail'); [reflexivity..|].
  destruct (proj2 (proj2 (reconcile_error_handling sampleLive appRequest
              (faultyCluster None (Some internalError) None)))
              (appRS 150%Z)) as (_ & Hfetch & _ & _); [reflexivity..|].
  split; [|split; [|split; [|split; [|split; [|split]]]]].
  - apply (proj1 (reconcile_error_handling sampleLive ("default", "gone-rs")
                    (sampleCluster 150%Z)) notFound); reflexivity.
  - apply (proj1 (proj2 (reconcile_error_handling sampleLive appRequest
                           (faultyCluster (Some internalError) None None)))
             internalError); reflexivity.
  - apply Hok.
    apply handledAll_cons
      with (w1 := wideCluster appConfig initConfig lateConfig noFault).
    { now apply handled_not_found with (err := notFound). }
    apply handledAll_cons
      with (w1 := wideCluster (wideOwned appConfig) initConfig lateConfig
                    noFault).
    { now apply handled_written
        with (cm := appConfig) (cm' := wideOwned appConfig). }
    apply handledAll_cons
      with (w1 := wideCluster (wideOwned appConfig) (wideOwned initConfig)
                    lateConfig noFault).
    { now apply handled_written
        with (cm := initConfig) (cm' := wideOwned initConfig). }
    apply handledAll_cons
      with (w1 := wideCluster (wideOwned appConfig) (wideOwned initConfig)
                    (wideOwned lateConfig) noFault).
    { now apply handled_written
        with (cm := lateConfig) (cm' := wideOwned lateConfig). }
    apply handledAll_nil.
  - apply (Hfail ["gone-config"; "app-config"] "init-config" ["late-config"]
             (wideCluster (wideOwned appConfig) initConfig lateConfig
                conflictOnInit)).
    + reflexivity.
    + apply handledAll_cons
        with (w1 := wideCluster appConfig initConfig lateConfig
                      conflictOnInit).
      { now apply handled_not_found with (err := notFound). }
      apply handledAll_cons
        with (w1 := wideCluster (wideOwned appConfig) initConfig lateConfig
                      conflictOnInit).
      { now apply handled_written
          with (cm := appConfig) (cm' := wideOwned appConfig). }
      apply handledAll_nil.
    + now apply failed_persist
        with (cm := initConfig) (cm' := wideOwned initConfig).
  - apply (Hfetch [] "app-config" []
             (faultyCluster None (Some internalError) None)).
    + reflexivity.
    + apply handledAll_nil.
    + now apply failed_fetch.
  - apply Hok'. reflexivity.
  - apply Hfail'. reflexivity.
Defined.

(* ===================================================================== *)
(** * What [SetOwnerReference] writes                                     *)
(* ===================================================================== *)

Lemma upsertOwnerRef_In (ref : OwnerReference) (owners : list OwnerReference) :
  In ref (upsertOwnerRef ref owners).
Proof.
  induction owners as [|o owners IH]; simpl; [now left|].
  destruct (referSameObject o ref); simpl; auto.
Qed.

(** Where no record referred to the workload, the upsert leaves exactly
    one that does. *)
Lemma upsertOwnerRef_single (rs : ReplicaSet) (ref : OwnerReference)
    (owners : list OwnerReference) :
  refersTo rs ref = true ->
  existsb (refersTo rs) owners = false ->
  List.filter (refersTo rs) (upsertOwnerRef ref owners) = [ref].
Proof.
  intros Href. induction owners as [|o owners IH]; simpl; intros Hnone.
  - now rewrite Href.
  - apply orb_false_iff in Hnone. destruct Hnone as [Ho Hrest].
    destruct (referSameObject o ref); simpl.
    + rewrite Href. f_equal.
      clear IH. induction owners as [|o' owners IH]; simpl; [reflexivity|].
      simpl in Hrest. apply orb_false_iff in Hrest.
      destruct Hrest as [-> Hrest]. now apply IH.
    + rewrite Ho. now apply IH.
Qed.

Lemma SetOwnerReference_inv (rs : ReplicaSet) (cm cm' : ConfigMap)
    (scheme : Scheme) :
  SetOwnerReference rs cm scheme = inr cm' ->
  exists gvk,
    In gvk (ReplicaSetKinds scheme)
    /\ cm' = setOwnerReferences cm
               (upsertOwnerRef
                  {| ref_APIVersion := GroupVersionString gvk;
                     ref_Kind := gvk_Kind gvk;
                     ref_Name := Name (rs_Meta rs);
                     ref_UID := UID (rs_Meta rs);
                     ref_Controller := None;
                     ref_BlockOwnerDeletion := None |}
                  (OwnerReferences (cm_Meta cm))).
Proof.
  unfold SetOwnerReference, GVKForObject.
  destruct (validateOwner rs cm); [discriminate|].
  destruct (ReplicaSetKinds scheme) as [|gvk [|gvk' kinds]]; try discriminate.
  intros [= <-]. exists gvk. split; [now left | reflexivity].
Qed.

Lemma SetOwnerReference_key (rs : ReplicaSet) (cm cm' : ConfigMap)
    (scheme : Scheme) :
  SetOwnerReference rs cm scheme = inr cm' -> cmKey cm' = cmKey cm.
Proof.
  intros Hset. apply SetOwnerReference_inv in Hset.
  destruct Hset as (gvk & _ & ->). reflexivity.
Qed.

Lemma SetOwnerReference_refersTo (rs : ReplicaSet) (gvk : GroupVersionKind) :
  gvk_Kind gvk = "ReplicaSet" ->
  refersTo rs {| ref_APIVersion := GroupVersionString gvk;
                 ref_Kind := gvk_Kind gvk;
                 ref_Name := Name (rs_Meta rs);
                 ref_UID := UID (rs_Meta rs);
                 ref_Controller := None;
                 ref_BlockOwnerDeletion := None |} = true.
Proof.
  intros Hkind. unfold refersTo. simpl.
  now rewrite Hkind, !String.eqb_refl.
Qed.

Lemma SetOwnerReference_present (rs : ReplicaSet) (cm cm' : ConfigMap)
    (scheme : Scheme) :
  registersReplicaSetKind scheme ->
  SetOwnerReference rs cm scheme = inr cm' ->
  isOwnerReferencePresent cm' rs = true.
Proof.
  intros Hkinds Hset. apply SetOwnerReference_inv in Hset.
  destruct Hset as (gvk & Hin & ->).
  unfold isOwnerReferencePresent. simpl. apply existsb_exists.
  eexists. split; [apply upsertOwnerRef_In|].
  apply SetOwnerReference_refersTo.
  unfold registersReplicaSetKind in Hkinds.
  rewrite List.Forall_forall in Hkinds. now apply Hkinds.
Qed.

Lemma SetOwnerReference_single (rs : ReplicaSet) (cm cm' : ConfigMap)
    (scheme : Scheme) :
  registersReplicaSetKind scheme ->
  isOwnerReferencePresent cm rs = false ->
  SetOwnerReference rs cm scheme = inr cm' ->
  length (List.filter (refersTo rs) (OwnerReferences (cm_Meta cm'))) = 1.
Proof.
  intros Hkinds Hnone Hset. apply SetOwnerReference_inv in Hset.
  destruct Hset as (gvk & Hin & ->). simpl.
  rewrite upsertOwnerRef_single; [reflexivity | | exact Hnone].
  apply SetOwnerReference_refersTo.
  unfold registersReplicaSetKind in Hkinds.
  rewrite List.Forall_forall in Hkinds. now apply Hkinds.
Qed.

(* ===================================================================== *)
(** * The Ownership Reconciler against a lawful client                    *)
(* ===================================================================== *)

Section LawfulClient.
Context `{Regexp} {W : Type} `{Client W} `{!ClientLaws W}.
Variable r : ReplicaSetReconciler.
Variable rs : ReplicaSet.
Hypothesis scheme_kind : registersReplicaSetKind (r_Scheme r).

Local Abbreviation ns := (Namespace (rs_Meta rs)).

Lemma settled_noop (w : W) (name : string) :
  settled r rs w name -> processConfigMap r ns name rs w = (w, None).
Proof.
  unfold settled, processConfigMap.
  destruct (Get_ConfigMap w (ns, name)) as [err|cm].
  - now intros ->.
  - destruct (isOwnerReferencePresent cm rs); [reflexivity|].
    simpl. now intros ->.
Qed.

Lemma failed_step_unchanged (w w' : W) (name : string) (err : error) :
  processConfigMap r ns name rs w = (w', Some err) -> w' = w.
Proof.
  unfold processConfigMap.
  destruct (Get_ConfigMap w (ns, name)) as [e|cm].
  - destruct (IsNotFound e); congruence.
  - destruct (isOwnerReferencePresent cm rs); [congruence|].
    destruct (DryRun (Config r)); [congruence|].
    destruct (SetOwnerReference rs cm (r_Scheme r)) as [e|cm'];
      [congruence|].
    apply update_failure.
Qed.

Lemma step_settles (w w' : W) (name : string) :
  processConfigMap r ns name rs w = (w', None) -> settled r rs w' name.
Proof.
  unfold processConfigMap, settled.
  destruct (Get_ConfigMap w (ns, name)) as [e|cm] eqn:Hget.
  - destruct (IsNotFound e) eqn:Hnf; [|discriminate].
    intros [= <-]. now rewrite Hget.
  - destruct (isOwnerReferencePresent cm rs) eqn:Hown.
    { intros [= <-]. now rewrite Hget, Hown. }
    destruct (DryRun (Config r)) eqn:Hdry.
    { intros [= <-]. rewrite Hget, Hown. reflexivity. }
    destruct (SetOwnerReference rs cm (r_Scheme r)) as [e|cm'] eqn:Hset;
      [discriminate|].
    intros Hupd.
    pose proof (get_key _ _ _ Hget) as Hkey.
    pose proof (SetOwnerReference_key _ _ _ _ Hset) as Hkey'.
    rewrite Hkey in Hkey'.
    destruct (update_read_back w cm' w' cm Hupd) as (cm'' & Hget' & Hrefs).
    { now rewrite Hkey'. }
    rewrite Hkey' in Hget'. rewrite Hget'.
    pose proof (SetOwnerReference_present _ _ _ _ scheme_kind Hset) as Hpres.
    unfold isOwnerReferencePresent in *. rewrite Hrefs, Hpres. reflexivity.
Qed.

Lemma step_preserves_settled (w w' : W) (name other : string)
    (res : option error) :
  settled r rs w name ->
  processConfigMap r ns other rs w = (w', res) ->
  settled r rs w' name.
Proof.
  intros Hsettled Hstep.
  destruct res as [err|].
  { apply failed_step_unchanged in Hstep. now subst. }
  destruct (String.eqb_spec other name) as [->|Hne].
  { rewrite (settled_noop _ _ Hsettled) in Hstep.
    injection Hstep as <-. exact Hsettled. }
  revert Hstep. unfold processConfigMap.
  destruct (Get_ConfigMap w (ns, other)) as [e|cm] eqn:Hget.
  { destruct (IsNotFound e); [|discriminate]. now intros [= <-]. }
  destruct (isOwnerReferencePresent cm rs); [now intros [= <-]|].
  destruct (DryRun (Config r)); [now intros [= <-]|].
  destruct (SetOwnerReference rs cm (r_Scheme r)) as [e|cm'] eqn:Hset;
    [discriminate|].
  intros Hupd. unfold settled.
  rewrite (update_frame w cm' w' (ns, name) Hupd); [exact Hsettled|].
  rewrite (SetOwnerReference_key _ _ _ _ Hset), (get_key _ _ _ Hget).
  congruence.
Qed.

Lemma loop_preserves_settled (names : list string) (w w' : W)
    (name : string) (res : option error) :
  settled r rs w name ->
  processConfigMaps r rs names w = (w', res) ->
  settled r rs w' name.
Proof.
  revert w. induction names as [|other rest IH]; intros w Hsettled; simpl.
  - now intros [= <- _].
  -
    destruct (processConfigMap r ns other rs w) as [w1 [err|]] eqn:Hstep.
    + intros [= <- _]. eapply step_preserves_settled; eauto.
    + apply IH. eapply step_preserves_settled; eauto.
Qed.

(** Running the loop again from where it ended ends in the same place
    with the same answer. *)
Lemma processConfigMaps_stable (names : list string) (w w' : W)
    (res : option error) :
  processConfigMaps r rs names w = (w', res) ->
  processConfigMaps r rs names w' = (w', res).
Proof.
  revert w. induction names as [|name rest IH]; intros w; simpl.
  - now intros [= <- <-].
  -
    destruct (processConfigMap r ns name rs w) as [w1 [err|]] eqn:Hstep.
    + intros [= <- <-].
      pose proof (failed_step_unchanged _ _ _ _ Hstep) as ->.
      now rewrite Hstep.
    + intros Hrest.
      pose proof (step_settles _ _ _ Hstep) as Hsettled.
      pose proof (loop_preserves_settled _ _ _ _ _ Hsettled Hrest) as Hs'.
      rewrite (settled_noop _ _ Hs'). now apply (IH w1).
Qed.

Lemma step_frame_ReplicaSet (w w' : W) (name : string)
    (res : option error) (k : NamespacedName) :
  processConfigMap r ns name rs w = (w', res) ->
  Get_ReplicaSet w' k = Get_ReplicaSet w k.
Proof.
  destruct res as [err|].
  { intros Hstep. apply failed_step_unchanged in Hstep. now subst. }
  unfold processConfigMap.
  destruct (Get_ConfigMap w (ns, name)) as [e|cm].
  { destruct (IsNotFound e); [|discriminate]. now intros [= <-]. }
  destruct (isOwnerReferencePresent cm rs); [now intros [= <-]|].
  destruct (DryRun (Config r)); [now intros [= <-]|].
  destruct (SetOwnerReference rs cm (r_Scheme r)) as [e|cm'];
    [discriminate|].
  intros Hupd. now apply (update_frame_ReplicaSet w cm').
Qed.

Lemma loop_frame_ReplicaSet (names : list string) (w w' : W)
    (res : option error) (k : NamespacedName) :
  processConfigMaps r rs names w = (w', res) ->
  Get_ReplicaSet w' k = Get_ReplicaSet w k.
Proof.
  revert w. induction names as [|name rest IH]; intros w; simpl.
  - now intros [= <- _].
  -
    destruct (processConfigMap r ns name rs w) as [w1 [err|]] eqn:Hstep.
    + intros [= <- _]. eapply step_frame_ReplicaSet; eauto.
    + intros Hrest. rewrite (IH _ Hrest).
      eapply step_frame_ReplicaSet; eauto.
Qed.

End LawfulClient.

(** The in-memory cluster is a lawful client. *)
#[export] Instance ClusterClientLaws : ClientLaws Cluster.
Proof.
  split.
  - intros w [ns name] cm. simpl. unfold clusterGetConfigMap.
    destruct (getConfigMapFault w (ns, name)); [discriminate|].
    destruct (configMaps w !! (ns, name)); [|discriminate].
    now intros [= <-].
  - intros w cm w' err. simpl. unfold clusterUpdate.
    destruct (updateFault w (cmKey cm)); [congruence|].
    destruct (configMaps w !! cmKey cm); congruence.
  - intros w cm w' cm0. simpl. unfold clusterUpdate, clusterGetConfigMap.
    destruct (updateFault w (cmKey cm)); [discriminate|].
    destruct (configMaps w !! cmKey cm); [|discriminate].
    intros [= <-]. simpl.
    destruct (getConfigMapFault w (cmKey cm)); [discriminate|]. intros _.
    rewrite lookup_insert_eq. eexists. split; reflexivity.
  - intros w cm w' k. simpl. unfold clusterUpdate, clusterGetConfigMap.
    destruct (updateFault w (cmKey cm)); [discriminate|].
    destruct (configMaps w !! cmKey cm); [|discriminate].
    intros [= <-] Hne. simpl. now rewrite lookup_insert_ne.
  - intros w cm w' k. simpl. unfold clusterUpdate, clusterGetReplicaSet.
    destruct (updateFault w (cmKey cm)); [discriminate|].
    destruct (configMaps w !! cmKey cm); [|discriminate].
    now intros [= <-].
Qed.

(** C3. Against a lawful client, and with the scheme registering the
    workload type under the kind [ReplicaSet], [Reconcile] is idempotent:
    run again on the cluster the first run left, it leaves that cluster as
    it is and answers as the first run did. The reason is the presence
    check: a ConfigMap that already carries a record for the workload's
    (kind, name, unique-id) is passed over without a write, and the write
    made where none was there leaves exactly one such record. *)
Theorem Reconcile_idempotent `{Regexp} {W : Type} `{Client W}
    `{!ClientLaws W} (r : ReplicaSetReconciler) (req : NamespacedName)
    (w : W) :
  registersReplicaSetKind (r_Scheme r) ->
  (forall w1 res,
      Reconcile r req w = (w1, res) -> Reconcile r req w1 = (w1, res))
  /\ (forall namespace name rs cm,
        Get_ConfigMap w (namespace, name) = inr cm ->
        isOwnerReferencePresent cm rs = true ->
        processConfigMap r namespace name rs w = (w, None))
  /\ (forall rs cm cm',
        isOwnerReferencePresent cm rs = false ->
        SetOwnerReference rs cm (r_Scheme r) = inr cm' ->
        length (List.filter (refersTo rs) (OwnerReferences (cm_Meta cm'))) = 1).
Proof.
  intros Hkind. split; [|split].
  - intros w1 res. unfold Reconcile.
    destruct (shouldProcessNamespace r (req_Namespace req)) eqn:Hscope; simpl.
    2: { intros [= <- <-]. reflexivity. }
    destruct (Get_ReplicaSet w req) as [err|rs] eqn:Hget.
    { destruct (IsNotFound err) eqn:Hnf; intros [= <- <-];
        now rewrite Hget, Hnf. }
    destruct (Before (CreationTimestamp (rs_Meta rs)) (StartTime r)) eqn:Hold.
    { intros [= <- <-]. now rewrite Hget, Hold. }
    destruct (length (extractConfigMapVolumes rs) =? 0)%nat eqn:Hlen.
    { intros [= <- <-]. now rewrite Hget, Hold, Hlen. }
    destruct (processConfigMaps r rs (extractConfigMapVolumes rs) w)
      as [w' err] eqn:Hloop.
    intros [= <- <-].
    rewrite (loop_frame_ReplicaSet r rs _ _ _ _ req Hloop), Hget, Hold, Hlen.
    now rewrite (processConfigMaps_stable r rs Hkind _ _ _ _ Hloop).
  - intros namespace name rs cm Hget Hown. unfold processConfigMap.
    now rewrite Hget, Hown.
  - intros rs cm cm' Hnone Hset.
    now apply (SetOwnerReference_single rs cm cm' (r_Scheme r)).
Qed.

Lemma Reconcile_idempotent_witness :
  registersReplicaSetKind (r_Scheme sampleLive)
  /\ clusterGetConfigMap
       (fst (Reconcile sampleLive appRequest (sampleCluster 150%Z)))
       ("default", "app-config")
     = inr (setOwnerReferences appConfig [appOwnerReference])
  /\ Reconcile sampleLive appRequest
       (fst (Reconcile sampleLive appRequest (sampleCluster 150%Z)))
     = (fst (Reconcile sampleLive appRequest (sampleCluster 150%Z)),
        (emptyResult, None)).
Proof.
  assert (Hkind : registersReplicaSetKind (r_Scheme sampleLive)).
  { repeat constructor. }
  split; [exact Hkind|]. split; [reflexivity|].
  apply (proj1 (Reconcile_idempotent sampleLive appRequest
                  (sampleCluster 150%Z) Hkind)).
  reflexivity.
Defined.

(* ===================================================================== *)
(** * The Startup Watermark Guard                                         *)
(* ===================================================================== *)

(** The guard of [Reconcile] lets through every workload created at or
    after the start time; the admission predicate only those created
    strictly after it. *)
Lemma Before_false_iff (creationTime startTime : Time) :
  Before creationTime startTime = false <-> (startTime <= creationTime)%Z.
Proof. unfold Before. rewrite Z.ltb_ge. reflexivity. Qed.

Lemma After_true_iff (creationTime startTime : Time) :
  After creationTime startTime = true <-> (startTime < creationTime)%Z.
Proof. unfold After. apply Z.ltb_lt. Qed.

(** C1. At a creation time equal to the start time the two checks part:
    the admission predicate rejects the create event, as a guard that is
    strictly-after must, while [Reconcile] treats the workload as new and
    writes the ownership reference on the ConfigMap it mounts. *)
Theorem watermark_guard_at_equality :
  CreationTimestamp (rs_Meta (appRS 100%Z)) = StartTime sampleLive
  /\ After (CreationTimestamp (rs_Meta (appRS 100%Z))) (StartTime sampleLive)
     = false
  /\ admits (replicaSetPredicate sampleLive)
       (CreateEvent (ReplicaSetObject (appRS 100%Z))) = false
  /\ Before (CreationTimestamp (rs_Meta (appRS 100%Z))) (StartTime sampleLive)
     = false
  /\ snd (Reconcile sampleLive appRequest (sampleCluster 100%Z))
     = (emptyResult, None)
  /\ clusterGetConfigMap
       (fst (Reconcile sampleLive appRequest (sampleCluster 100%Z)))
       ("default", "app-config")
     = inr (setOwnerReferences appConfig [appOwnerReference])
  /\ fst (Reconcile sampleLive appRequest (sampleCluster 100%Z))
     <> sampleCluster 100%Z.
Proof.
  repeat (split; [reflexivity|]).
  intros Heq.
  apply (f_equal (fun w => clusterGetConfigMap w ("default", "app-config")))
    in Heq.
  vm_compute in Heq. discriminate.
Qed.

(* ===================================================================== *)
(** * [TrimSpace] trims                                                   *)
(* ===================================================================== *)

Lemma trimLeft_head (s : string) : startsClean (trimLeft s).
Proof.
  assert (Hall : forall n s, String.length s <= n -> startsClean (trimLeft s)).
  { clear s. induction n as [|n IH]; intros s Hlen.
    - destruct s; [exact I | simpl in Hlen; lia].
    - destruct s as [|b1 s1]; [exact I|]. simpl in Hlen.
      cbn [trimLeft]. destruct (asciiSpace b1) eqn:H1.
      { apply IH. lia. }
      destruct s1 as [|b2 s2]; [exact H1|]. simpl in Hlen.
      destruct (isSpace2 b1 b2).
      { apply IH. lia. }
      destruct s2 as [|b3 s3]; [exact H1|]. simpl in Hlen.
      destruct (isSpace3 b1 b2 b3); [apply IH; lia | exact H1]. }
  apply (Hall (String.length s)). lia.
Qed.

Lemma trimLeftRev_head (s : string) : startsClean (trimLeftRev s).
Proof.
  assert (Hall : forall n s, String.length s <= n -> startsClean (trimLeftRev s)).
  { clear s. induction n as [|n IH]; intros s Hlen.
    - destruct s; [exact I | simpl in Hlen; lia].
    - destruct s as [|b1 s1]; [exact I|]. simpl in Hlen.
      cbn [trimLeftRev]. destruct (asciiSpace b1) eqn:H1.
      { apply IH. lia. }
      destruct s1 as [|b2 s2]; [exact H1|]. simpl in Hlen.
      destruct (isSpace2 b2 b1).
      { apply IH. lia. }
      destruct s2 as [|b3 s3]; [exact H1|]. simpl in Hlen.
      destruct (isSpace3 b3 b2 b1); [apply IH; lia | exact H1]. }
  apply (Hall (String.length s)). lia.
Qed.

(** Trimming only drops a prefix. *)
Lemma trimLeftRev_suffix (s : string) :
  exists dropped, s = (dropped ++ trimLeftRev s)%string.
Proof.
  assert (Hall : forall n s, String.length s <= n ->
                   exists dropped, s = (dropped ++ trimLeftRev s)%string).
  { clear s. induction n as [|n IH]; intros s Hlen.
    - destruct s; [now exists "" | simpl in Hlen; lia].
    - destruct s as [|b1 s1]; [now exists ""|]. simpl in Hlen.
      cbn [trimLeftRev]. destruct (asciiSpace b1).
      { destruct (IH s1) as [d Hd]; [lia|].
        exists (String b1 d). rewrite Hd at 1. reflexivity. }
      destruct s1 as [|b2 s2]; [now exists ""|]. simpl in Hlen.
      destruct (isSpace2 b2 b1).
      { destruct (IH s2) as [d Hd]; [lia|].
        exists (String b1 (String b2 d)). rewrite Hd at 1. reflexivity. }
      destruct s2 as [|b3 s3]; [now exists ""|]. simpl in Hlen.
      destruct (isSpace3 b3 b2 b1); [|now exists ""].
      destruct (IH s3) as [d Hd]; [lia|].
      exists (String b1 (String b2 (String b3 d))). rewrite Hd at 1. reflexivity. }
  apply (Hall (String.length s)). lia.
Qed.

Lemma list_ascii_of_string_app (a b : string) :
  list_ascii_of_string (a ++ b)%string
  = list_ascii_of_string a ++ list_ascii_of_string b.
Proof. induction a as [|c a IH]; simpl; [reflexivity | now rewrite IH]. Qed.

Lemma string_of_list_ascii_app (l1 l2 : list ascii) :
  string_of_list_ascii (l1 ++ l2)
  = (string_of_list_ascii l1 ++ string_of_list_ascii l2)%string.
Proof. induction l1 as [|c l1 IH]; simpl; [reflexivity | now rewrite IH]. Qed.

Lemma revString_app (a b : string) :
  revString (a ++ b)%string = (revString b ++ revString a)%string.
Proof.
  unfold revString.
  now rewrite list_ascii_of_string_app, rev_app_distr, string_of_list_ascii_app.
Qed.

Lemma revString_involutive (s : string) : revString (revString s) = s.
Proof.
  unfold revString.
  now rewrite list_ascii_of_string_of_list_ascii, rev_involutive,
    string_of_list_ascii_of_string.
Qed.

(** What [TrimSpace] returns neither starts nor ends with an ASCII
    white-space byte. *)
Lemma TrimSpace_trimmed (s : string) :
  startsClean (TrimSpace s) /\ startsClean (revString (TrimSpace s)).
Proof.
  unfold TrimSpace. split.
  - destruct (trimLeftRev_suffix (revString (trimLeft s))) as [d Hd].
    apply (f_equal revString) in Hd.
    rewrite revString_involutive, revString_app in Hd.
    pose proof (trimLeft_head s) as Hhead. rewrite Hd in Hhead.
    destruct (revString (trimLeftRev (revString (trimLeft s))));
      [exact I | exact Hhead].
  - rewrite revString_involutive. apply trimLeftRev_head.
Qed.

(* ===================================================================== *)
(** * Finalizing the configuration                                        *)
(* ===================================================================== *)

(** C9, as the code has it. After [NewConfig], [flag.Parse] and
    [FinalizeConfig]: a non-empty NAMESPACE_REGEX replaces the patterns of
    the flag, and either source is split at commas with each entry
    trimmed; DRY_RUN, DEBUG and TRACE switch their option on when they are
    exactly ["true"] and leave the flag's value alone otherwise; and
    TRACE set to ["true"] also switches debug on. *)
Theorem FinalizeConfig_spec (env : gmap string string) (f : Flags) :
  (Getenv env "NAMESPACE_REGEX" <> "" ->
   NamespaceRegex (loadConfig env f)
   = map TrimSpace (Split (Getenv env "NAMESPACE_REGEX") ","%char))
  /\ (Getenv env "NAMESPACE_REGEX" = "" -> flag_namespace_regex f <> "" ->
      NamespaceRegex (loadConfig env f)
      = map TrimSpace (Split (flag_namespace_regex f) ","%char))
  /\ (Getenv env "NAMESPACE_REGEX" = "" -> flag_namespace_regex f = "" ->
      NamespaceRegex (loadConfig env f) = [])
  /\ DryRun (loadConfig env f)
     = flag_dry_run f || String.eqb (Getenv env "DRY_RUN") "true"
  /\ Debug (loadConfig env f)
     = flag_debug f || String.eqb (Getenv env "DEBUG") "true"
       || String.eqb (Getenv env "TRACE") "true"
  /\ Trace (loadConfig env f)
     = flag_trace f || String.eqb (Getenv env "TRACE") "true".
Proof.
  unfold loadConfig, FinalizeConfig, splitPatterns, trueValue, comma. simpl.
  repeat split.
  - intros Henv. apply String.eqb_neq in Henv. now rewrite Henv.
  - intros -> Hflag. apply String.eqb_neq in Hflag. now rewrite Hflag.
  - intros -> ->. reflexivity.
  - destruct (String.eqb (Getenv env "DRY_RUN") "true");
      [now rewrite orb_true_r | now rewrite orb_false_r].
  - destruct (String.eqb (Getenv env "TRACE") "true");
      [now rewrite orb_true_r|].
    rewrite orb_false_r.
    destruct (String.eqb (Getenv env "DEBUG") "true");
      [now rewrite orb_true_r | now rewrite orb_false_r].
  - destruct (String.eqb (Getenv env "TRACE") "true");
      [now rewrite orb_true_r | now rewrite orb_false_r].
Qed.

Lemma FinalizeConfig_spec_witness :
  Getenv sampleEnv "NAMESPACE_REGEX" <> ""
  /\ NamespaceRegex (loadConfig sampleEnv sampleFlags)
     = ["^kube-.*"; "^default$"].
Proof.
  split; [discriminate|].
  apply (proj1 (FinalizeConfig_spec sampleEnv sampleFlags)). discriminate.
Defined.

(** C9 as stated fails: with [--dry-run] and [--trace] on the command line
    and DRY_RUN set to ["false"], the environment variable does not take
    precedence over the flag (dry-run stays on), and trace is set without
    debug being forced. *)
Lemma env_precedence_counterexample :
  Getenv dryRunOffEnv "DRY_RUN" = "false"
  /\ flag_dry_run sampleFlags = true
  /\ DryRun (loadConfig dryRunOffEnv sampleFlags) = true
  /\ DryRun (loadConfig dryRunOffEnv sampleFlags)
     <> String.eqb (Getenv dryRunOffEnv "DRY_RUN") trueValue
  /\ Trace (loadConfig dryRunOffEnv sampleFlags) = true
  /\ Debug (loadConfig dryRunOffEnv sampleFlags) = false.
Proof. repeat split. discriminate. Qed.

Lemma extractConfigMapVolumes_spec_witness :
  extractConfigMapVolumes richRS = ["app-config"; "init-config"]
  /\ ~ In "unused-config" (extractConfigMapVolumes richRS).
Proof.
  split; [reflexivity|].
  apply (proj2 (proj2 (proj2 (extractConfigMapVolumes_spec richRS)))).
  intros volume Hin Hsrc (container & vm & Hc & Hvm & Hname).
  simpl in Hin.
  destruct Hin as [<-|[<-|[<-|[<-|[<-|[]]]]]]; try discriminate Hsrc.
  simpl in Hc, Hname.
  destruct Hc as [<-|[<-|[<-|[]]]]; simpl in Hvm;
    destruct Hvm as [<-|[<-|[]]]; discriminate Hname.
Defined.

(* ===================================================================== *)
(** * More on the configuration                                           *)
(* ===================================================================== *)

Lemma loadConfig_Trace (env : gmap string string) (f : Flags) :
  Trace (loadConfig env f) = true
  <-> flag_trace f = true \/ Getenv env "TRACE" = "true".
Proof.
  unfold loadConfig, FinalizeConfig, trueValue. simpl.
  destruct (String.eqb_spec (Getenv env "TRACE") "true") as [Heq|Hne].
  - split; auto.
  - split; [auto|]. intros [Hf|He]; [exact Hf | contradiction].
Qed.

Lemma loadConfig_Debug (env : gmap string string) (f : Flags) :
  Debug (loadConfig env f) = true
  <-> flag_debug f = true \/ Getenv env "DEBUG" = "true"
      \/ Getenv env "TRACE" = "true".
Proof.
  unfold loadConfig, FinalizeConfig, trueValue. simpl.
  destruct (String.eqb_spec (Getenv env "TRACE") "true") as [Ht|Ht];
    [split; auto|].
  destruct (String.eqb_spec (Getenv env "DEBUG") "true") as [Hd|Hd];
    [split; auto|].
  split; [auto|]. intros [Hf|[He|He]]; [exact Hf | contradiction..].
Qed.

(** X1. The log level of the loaded configuration is -2 exactly when trace
    is asked for by the flag or by TRACE set to ["true"]; it is -1 exactly
    when trace is not asked for and debug is, by the flag or by DEBUG set
    to ["true"]; and it is 0 exactly when neither is asked for. Trace wins
    over debug, and no other level comes out. *)
Theorem LogLevel_loadConfig (env : gmap string string) (f : Flags) :
  (LogLevel (loadConfig env f) = (-2)%Z
   <-> flag_trace f = true \/ Getenv env "TRACE" = "true")
  /\ (LogLevel (loadConfig env f) = (-1)%Z
      <-> ~ (flag_trace f = true \/ Getenv env "TRACE" = "true")
          /\ (flag_debug f = true \/ Getenv env "DEBUG" = "true"))
  /\ (LogLevel (loadConfig env f) = 0%Z
      <-> ~ (flag_trace f = true \/ Getenv env "TRACE" = "true")
          /\ ~ (flag_debug f = true \/ Getenv env "DEBUG" = "true")).
Proof.
  pose proof (loadConfig_Trace env f) as Ht.
  pose proof (loadConfig_Debug env f) as Hd.
  unfold LogLevel.
  destruct (Trace (loadConfig env f)); destruct (Debug (loadConfig env f));
    repeat split; intros; try discriminate; intuition congruence.
Qed.

(** X2. Finalizing twice is finalizing once: a second [FinalizeConfig]
    under the same environment changes nothing. *)
Theorem FinalizeConfig_idempotent (env : gmap string string)
    (c : OperatorConfig) :
  FinalizeConfig env (FinalizeConfig env c) = FinalizeConfig env c.
Proof.
  unfold FinalizeConfig. cbn [NamespaceRegex DryRun Debug Trace namespaceRegexStr].
  destruct (String.eqb (Getenv env "NAMESPACE_REGEX") ""); simpl;
    destruct (String.eqb (Getenv env "DRY_RUN") trueValue);
    destruct (String.eqb (Getenv env "DEBUG") trueValue);
    destruct (String.eqb (Getenv env "TRACE") trueValue);
    try reflexivity;
    destruct (namespaceRegexStr c) as [str|]; try reflexivity;
    destruct (String.eqb str ""); reflexivity.
Qed.

Lemma loadConfig_patterns (env : gmap string string) (f : Flags) :
  NamespaceRegex (loadConfig env f)
  = if String.eqb (patternSource env f) "" then []
    else splitPatterns (patternSource env f).
Proof.
  unfold loadConfig, FinalizeConfig, patternSource. simpl.
  destruct (String.eqb (Getenv env "NAMESPACE_REGEX") "") eqn:Henv; simpl.
  - destruct (String.eqb (flag_namespace_regex f) ""); reflexivity.
  - now rewrite Henv.
Qed.

Lemma Split_length (s : string) (sep : ascii) :
  length (Split s sep) = S (countByte sep s).
Proof.
  induction s as [|c s IH]; simpl; [reflexivity|].
  destruct (Ascii.eqb c sep); simpl; [now rewrite IH|].
  pose proof (Split_nonempty s sep) as Hne.
  destruct (Split s sep); [contradiction | exact IH].
Qed.

Lemma Split_no_sep (s : string) (sep : ascii) (piece : string) :
  In piece (Split s sep) -> ~ hasByte sep piece.
Proof.
  unfold hasByte. revert piece. induction s as [|c s IH]; simpl; intros piece.
  - intros [<-|[]]. simpl. tauto.
  - destruct (Ascii.eqb_spec c sep) as [->|Hne].
    + intros [<-|Hin]; [simpl; tauto | now apply IH].
    + pose proof (Split_nonempty s sep) as Hnil.
      destruct (Split s sep) as [|p ps]; [contradiction|].
      intros [<-|Hin].
      * simpl. intros [Heq|Hin]; [congruence|].
        apply (IH p); [now left | exact Hin].
      * apply IH. now right.
Qed.

Lemma trimLeft_suffix (s : string) :
  exists dropped, s = (dropped ++ trimLeft s)%string.
Proof.
  assert (Hall : forall n s, String.length s <= n ->
                   exists dropped, s = (dropped ++ trimLeft s)%string).
  { clear s. induction n as [|n IH]; intros s Hlen.
    - destruct s; [now exists "" | simpl in Hlen; lia].
    - destruct s as [|b1 s1]; [now exists ""|]. simpl in Hlen.
      cbn [trimLeft]. destruct (asciiSpace b1).
      { destruct (IH s1) as [d Hd]; [lia|].
        exists (String b1 d). rewrite Hd at 1. reflexivity. }
      destruct s1 as [|b2 s2]; [now exists ""|]. simpl in Hlen.
      destruct (isSpace2 b1 b2).
      { destruct (IH s2) as [d Hd]; [lia|].
        exists (String b1 (String b2 d)). rewrite Hd at 1. reflexivity. }
      destruct s2 as [|b3 s3]; [now exists ""|]. simpl in Hlen.
      destruct (isSpace3 b1 b2 b3); [|now exists ""].
      destruct (IH s3) as [d Hd]; [lia|].
      exists (String b1 (String b2 (String b3 d))). rewrite Hd at 1.
      reflexivity. }
  apply (Hall (String.length s)). lia.
Qed.

Lemma hasByte_app (c : ascii) (a b : string) :
  hasByte c (a ++ b)%string <-> hasByte c a \/ hasByte c b.
Proof. unfold hasByte. now rewrite list_ascii_of_string_app, in_app_iff. Qed.

Lemma hasByte_revString (c : ascii) (s : string) :
  hasByte c (revString s) <-> hasByte c s.
Proof.
  unfold hasByte, revString.
  rewrite list_ascii_of_string_of_list_ascii. symmetry. apply in_rev.
Qed.

(** Trimming keeps a part of the string: it brings in no byte. *)
Lemma TrimSpace_hasByte (c : ascii) (s : string) :
  hasByte c (TrimSpace s) -> hasByte c s.
Proof.
  unfold TrimSpace. intros Hin.
  apply (proj1 (hasByte_revString c _)) in Hin.
  destruct (trimLeftRev_suffix (revString (trimLeft s))) as [d Hd].
  assert (Hrev : hasByte c (revString (trimLeft s))).
  { rewrite Hd. apply (proj2 (hasByte_app c _ _)). now right. }
  apply (proj1 (hasByte_revString c _)) in Hrev.
  destruct (trimLeft_suffix s) as [d' Hd']. rewrite Hd'.
  apply (proj2 (hasByte_app c _ _)). now right.
Qed.

(** X3. The pattern list of the loaded configuration is empty exactly when
    neither NAMESPACE_REGEX nor [--namespace-regex] is given, and a
    reconciler with that configuration then finds every namespace in
    scope. *)
Theorem match_all_default `{Regexp} (env : gmap string string) (f : Flags)
    (r : ReplicaSetReconciler) :
  Config r = loadConfig env f ->
  (NamespaceRegex (Config r) = []
   <-> Getenv env "NAMESPACE_REGEX" = "" /\ flag_namespace_regex f = "")
  /\ (Getenv env "NAMESPACE_REGEX" = "" -> flag_namespace_regex f = "" ->
      forall namespace, shouldProcessNamespace r namespace = true).
Proof.
  intros Hcfg. rewrite Hcfg.
  assert (Hiff : NamespaceRegex (loadConfig env f) = []
                 <-> Getenv env "NAMESPACE_REGEX" = ""
                     /\ flag_namespace_regex f = "").
  { rewrite loadConfig_patterns. unfold patternSource, splitPatterns.
    destruct (String.eqb_spec (Getenv env "NAMESPACE_REGEX") "") as [He|He].
    - destruct (String.eqb_spec (flag_namespace_regex f) "") as [Hf|Hf];
        [tauto|].
      split; [|tauto]. intros Hnil. apply map_eq_nil in Hnil.
      now apply Split_nonempty in Hnil.
    - apply String.eqb_neq in He. rewrite He. apply String.eqb_neq in He.
      split; [|tauto]. intros Hnil. apply map_eq_nil in Hnil.
      now apply Split_nonempty in Hnil. }
  split; [exact Hiff|].
  intros He Hf namespace. unfold shouldProcessNamespace.
  destruct Hiff as [_ Hnil]. now rewrite Hcfg, (Hnil (conj He Hf)).
Qed.

Lemma match_all_default_witness :
  shouldProcessNamespace
    {| r_Scheme := appsV1Scheme;
       Config := loadConfig dryRunOffEnv quietFlags;
       StartTime := 100%Z |} "kube-system" = true.
Proof.
  apply (proj2 (match_all_default dryRunOffEnv quietFlags
                  {| r_Scheme := appsV1Scheme;
                     Config := loadConfig dryRunOffEnv quietFlags;
                     StartTime := 100%Z |} eq_refl));
    reflexivity.
Defined.

(** X4. When a pattern source is given, the loaded configuration holds one
    pattern more than the source holds commas: no entry is dropped, not
    even an empty one. *)
Theorem pattern_count (env : gmap string string) (f : Flags) :
  patternSource env f <> "" ->
  length (NamespaceRegex (loadConfig env f))
  = S (countByte comma (patternSource env f)).
Proof.
  intros Hsrc. rewrite loadConfig_patterns.
  apply String.eqb_neq in Hsrc. rewrite Hsrc.
  unfold splitPatterns. now rewrite length_map, Split_length.
Qed.

Lemma pattern_count_witness :
  patternSource sampleEnv sampleFlags <> ""
  /\ length (NamespaceRegex (loadConfig sampleEnv sampleFlags)) = 2.
Proof.
  split; [discriminate|].
  apply (pattern_count sampleEnv sampleFlags). discriminate.
Defined.

(** X5. Every pattern of the loaded configuration is free of commas and
    neither starts nor ends with an ASCII white-space byte. *)
Theorem patterns_clean (env : gmap string string) (f : Flags)
    (pattern : string) :
  In pattern (NamespaceRegex (loadConfig env f)) ->
  ~ hasByte comma pattern
  /\ startsClean pattern
  /\ startsClean (revString pattern).
Proof.
  rewrite loadConfig_patterns.
  destruct (String.eqb (patternSource env f) ""); [intros []|].
  unfold splitPatterns. intros Hin. apply in_map_iff in Hin.
  destruct Hin as (piece & <- & Hpiece). split.
  - intros Hcomma. apply TrimSpace_hasByte in Hcomma.
    exact (Split_no_sep _ _ _ Hpiece Hcomma).
  - apply TrimSpace_trimmed.
Qed.

Lemma patterns_clean_witness :
  In "^default$" (NamespaceRegex (loadConfig sampleEnv sampleFlags))
  /\ ~ hasByte comma "^default$".
Proof.
  split; [right; left; reflexivity|].
  apply (patterns_clean sampleEnv sampleFlags "^default$").
  right. left. reflexivity.
Defined.

(* ===================================================================== *)
(** * More on the Namespace Filter and the watermark                      *)
(* ===================================================================== *)

(** X6. The Namespace Filter looks only at which patterns are listed: two
    configurations whose lists hold the same patterns, in any order and
    with any repetitions, decide every namespace alike. *)
Theorem filter_order_irrelevant `{Regexp} (r1 r2 : ReplicaSetReconciler)
    (namespace : string) :
  (forall pattern,
      In pattern (NamespaceRegex (Config r1))
      <-> In pattern (NamespaceRegex (Config r2))) ->
  shouldProcessNamespace r1 namespace = shouldProcessNamespace r2 namespace.
Proof.
  intros Hsame.
  assert (Hiff : shouldProcessNamespace r1 namespace = true
                 <-> shouldProcessNamespace r2 namespace = true).
  { rewrite !shouldProcessNamespace_true. split.
    - intros [Hnil|(p & Hp & Hm)].
      + left. destruct (NamespaceRegex (Config r2)) as [|q qs];
          [reflexivity|].
        assert (Hq : In q (NamespaceRegex (Config r1)))
          by (apply Hsame; now left).
        rewrite Hnil in Hq. contradiction.
      + right. exists p. split; [now apply Hsame | exact Hm].
    - intros [Hnil|(p & Hp & Hm)].
      + left. destruct (NamespaceRegex (Config r1)) as [|q qs];
          [reflexivity|].
        assert (Hq : In q (NamespaceRegex (Config r2)))
          by (apply Hsame; now left).
        rewrite Hnil in Hq. contradiction.
      + right. exists p. split; [now apply Hsame | exact Hm]. }
  destruct (shouldProcessNamespace r1 namespace);
    destruct (shouldProcessNamespace r2 namespace); try reflexivity.
  - symmetry. now apply Hiff.
  - now apply Hiff.
Qed.

Lemma filter_order_irrelevant_witness :
  shouldProcessNamespace
    (sampleReconciler ["^default$"; "^kube-.*"; "^default$"] false) "default"
  = shouldProcessNamespace
      (sampleReconciler ["^kube-.*"; "^default$"] false) "default".
Proof.
  apply (filter_order_irrelevant
           (sampleReconciler ["^default$"; "^kube-.*"; "^default$"] false)
           (sampleReconciler ["^kube-.*"; "^default$"] false) "default").
  intros pattern. simpl. tauto.
Defined.

(** X7. A non-empty pattern list none of whose patterns compiles puts
    every namespace out of scope, unlike the empty list: the filter
    answers false and [Reconcile] returns at once, without error and
    without touching the cluster. *)
Theorem all_patterns_malformed `{Regexp} {W : Type} `{Client W}
    (r : ReplicaSetReconciler) (namespace : string) :
  NamespaceRegex (Config r) <> [] ->
  (forall pattern,
      In pattern (NamespaceRegex (Config r)) ->
      exists matched err, MatchString pattern namespace = (matched, Some err)) ->
  shouldProcessNamespace r namespace = false
  /\ forall (name : string) (w : W),
       Reconcile r (namespace, name) w = (w, (emptyResult, None)).
Proof.
  intros Hne Hbad.
  assert (Hout : shouldProcessNamespace r namespace = false).
  { destruct (shouldProcessNamespace r namespace) eqn:Hin; [|reflexivity].
    apply shouldProcessNamespace_true in Hin.
    destruct Hin as [Hnil|(p & Hp & Hm)]; [contradiction|].
    destruct (Hbad p Hp) as (m & e & Herr). congruence. }
  split; [exact Hout|].
  intros name w. unfold Reconcile. simpl req_Namespace. now rewrite Hout.
Qed.

Lemma all_patterns_malformed_witness :
  shouldProcessNamespace (sampleReconciler ["("; "a**"] false) "default" = false
  /\ shouldProcessNamespace (sampleReconciler [] false) "default" = true.
Proof.
  split; [|reflexivity].
  apply (all_patterns_malformed (W := Cluster)
           (sampleReconciler ["("; "a**"] false) "default").
  - discriminate.
  - intros pattern [<-|[<-|[]]]; eexists; eexists; reflexivity.
Defined.

(** X8. Whatever the admission predicate admits, the guard of [Reconcile]
    lets through; and the guard lets through something the predicate
    rejects in exactly one case, a creation time equal to the start
    time. *)
Theorem admitted_passes_guard (r : ReplicaSetReconciler) (rs : ReplicaSet) :
  (admits (replicaSetPredicate r) (CreateEvent (ReplicaSetObject rs)) = true ->
   Before (CreationTimestamp (rs_Meta rs)) (StartTime r) = false)
  /\ (Before (CreationTimestamp (rs_Meta rs)) (StartTime r) = false
      /\ admits (replicaSetPredicate r) (CreateEvent (ReplicaSetObject rs))
         = false
      <-> CreationTimestamp (rs_Meta rs) = StartTime r).
Proof.
  simpl. unfold Before, After. split.
  - intros Hafter. apply Z.ltb_lt in Hafter. apply Z.ltb_ge. lia.
  - rewrite Z.ltb_ge, Z.ltb_ge. unfold Time in *. lia.
Qed.

Lemma admitted_passes_guard_witness :
  admits (replicaSetPredicate sampleLive)
    (CreateEvent (ReplicaSetObject (appRS 150%Z))) = true
  /\ Before (CreationTimestamp (rs_Meta (appRS 150%Z))) (StartTime sampleLive)
     = false.
Proof.
  split; [reflexivity|].
  apply (proj1 (admitted_passes_guard sampleLive (appRS 150%Z))).
  reflexivity.
Defined.

(* ===================================================================== *)
(** * More on the Reference Extractor                                     *)
(* ===================================================================== *)

Lemma extractConfigMapVolumes_In (rs : ReplicaSet) (name : string) :
  In name (extractConfigMapVolumes rs)
  <-> exists volume,
        In volume (Volumes (tpl_Spec (Template (rs_Spec rs))))
        /\ vol_ConfigMap volume = Some {| cmvs_Name := name |}
        /\ mounted rs volume.
Proof.
  now rewrite extractConfigMapVolumes_firstOccurrences, firstOccurrences_In,
    discoveries_In.
Qed.

Lemma extractConfigMapVolumes_NoDup (rs : ReplicaSet) :
  List.NoDup (extractConfigMapVolumes rs).
Proof.
  rewrite extractConfigMapVolumes_firstOccurrences.
  apply firstOccurrences_NoDup.
Qed.

(** X9. Reordering the containers, moving one between the primary and the
    init list, or reordering the volumes changes at most the order of the
    extracted names: two workloads with the same containers and the same
    volumes yield the same names, each once. *)
Theorem extract_order_irrelevant (rs1 rs2 : ReplicaSet) :
  (forall volume,
      In volume (Volumes (tpl_Spec (Template (rs_Spec rs1))))
      <-> In volume (Volumes (tpl_Spec (Template (rs_Spec rs2))))) ->
  (forall container,
      In container (Containers (tpl_Spec (Template (rs_Spec rs1)))
                    ++ InitContainers (tpl_Spec (Template (rs_Spec rs1))))
      <-> In container (Containers (tpl_Spec (Template (rs_Spec rs2)))
                        ++ InitContainers (tpl_Spec (Template (rs_Spec rs2))))) ->
  Permutation (extractConfigMapVolumes rs1) (extractConfigMapVolumes rs2).
Proof.
  intros Hvol Hcont.
  apply Permutation.NoDup_Permutation; try apply extractConfigMapVolumes_NoDup.
  intros name. rewrite !extractConfigMapVolumes_In. unfold mounted.
  split; intros (volume & Hv & Hsrc & c & vm & Hc & Hvm & Hname);
    exists volume; (split; [now apply Hvol|]); (split; [exact Hsrc|]);
    exists c, vm; (split; [now apply Hcont | now split]).
Qed.

Lemma extract_order_irrelevant_witness :
  Permutation (extractConfigMapVolumes richRS)
              (extractConfigMapVolumes swappedRS).
Proof.
  apply (extract_order_irrelevant richRS swappedRS).
  - intros volume. simpl. tauto.
  - intros container. simpl. tauto.
Defined.

(** X10. The extractor returns no more names than the template defines
    volumes, and nothing at all for a template without volumes or without
    containers. *)
Theorem extract_bounded (rs : ReplicaSet) :
  length (extractConfigMapVolumes rs)
  <= length (Volumes (tpl_Spec (Template (rs_Spec rs))))
  /\ (Volumes (tpl_Spec (Template (rs_Spec rs))) = [] ->
      extractConfigMapVolumes rs = [])
  /\ (Containers (tpl_Spec (Template (rs_Spec rs))) = [] ->
      InitContainers (tpl_Spec (Template (rs_Spec rs))) = [] ->
      extractConfigMapVolumes rs = []).
Proof.
  set (spec := tpl_Spec (Template (rs_Spec rs))).
  assert (Hbound : length (extractConfigMapVolumes rs) <= length (Volumes spec)).
  { transitivity (length (map volumeConfigMapName (Volumes spec)));
      [|now rewrite length_map].
    apply List.NoDup_incl_length; [apply extractConfigMapVolumes_NoDup|].
    intros name Hin. apply extractConfigMapVolumes_In in Hin.
    destruct Hin as (volume & Hv & Hsrc & _).
    apply in_map_iff. exists volume. split; [|exact Hv].
    unfold volumeConfigMapName. now rewrite Hsrc. }
  split; [exact Hbound|]. split.
  - intros Hnil. fold spec in Hnil. rewrite Hnil in Hbound. simpl in Hbound.
    destruct (extractConfigMapVolumes rs); [reflexivity | simpl in Hbound; lia].
  - intros Hc Hi. fold spec in Hc, Hi.
    destruct (extractConfigMapVolumes rs) as [|name names] eqn:Hnames;
      [reflexivity|].
    assert (Hin : In name (extractConfigMapVolumes rs))
      by (rewrite Hnames; now left).
    apply extractConfigMapVolumes_In in Hin.
    destruct Hin as (volume & _ & _ & c & vm & Hcin & _).
    fold spec in Hcin. rewrite Hc, Hi in Hcin. contradiction.
Qed.

Lemma extract_bounded_witness :
  extractConfigMapVolumes
    {| rs_Meta := rs_Meta richRS;
       rs_Spec := {| Template := {| tpl_Spec :=
         {| Volumes := Volumes richPodSpec; InitContainers := [];
            Containers := [] |} |} |} |} = [].
Proof.
  apply (proj2 (proj2 (extract_bounded
    {| rs_Meta := rs_Meta richRS;
       rs_Spec := {| Template := {| tpl_Spec :=
         {| Volumes := Volumes richPodSpec; InitContainers := [];
            Containers := [] |} |} |} |}))); reflexivity.
Defined.

(* ===================================================================== *)
(** * More on the Ownership Reconciler                                    *)
(* ===================================================================== *)

(** X11. [Reconcile] never asks for a requeue, and it changes the state of
    the cluster only when all of this holds: the namespace is in scope,
    dry-run is off, the workload was fetched, it was not created before
    the start time, and it mounts some ConfigMap. *)
Theorem Reconcile_changes_only_when `{Regexp} {W : Type} `{Client W}
    (r : ReplicaSetReconciler) (req : NamespacedName) (w : W) :
  fst (snd (Reconcile r req w)) = emptyResult
  /\ (fst (Reconcile r req w) <> w ->
      shouldProcessNamespace r (req_Namespace req) = true
      /\ DryRun (Config r) = false
      /\ exists rs,
           Get_ReplicaSet w req = inr rs
           /\ (StartTime r <= CreationTimestamp (rs_Meta rs))%Z
           /\ extractConfigMapVolumes rs <> []).
Proof.
  split.
  - unfold Reconcile.
    destruct (shouldProcessNamespace r (req_Namespace req)); [|reflexivity].
    simpl negb. cbv iota.
    destruct (Get_ReplicaSet w req) as [err|rs];
      [destruct (IsNotFound err); reflexivity|].
    cbv zeta.
    destruct (Before (CreationTimestamp (rs_Meta rs)) (StartTime r));
      [reflexivity|].
    destruct (length (extractConfigMapVolumes rs) =? 0)%nat; [reflexivity|].
    now destruct (processConfigMaps r rs (extractConfigMapVolumes rs) w).
  - intros Hchanged.
    destruct (DryRun (Config r)) eqn:Hdry.
    { exfalso. apply Hchanged. now apply Reconcile_dry_run. }
    revert Hchanged. unfold Reconcile.
    destruct (shouldProcessNamespace r (req_Namespace req));
      [|intros Hc; now contradiction Hc].
    simpl negb. cbv iota.
    destruct (Get_ReplicaSet w req) as [err|rs].
    { destruct (IsNotFound err); intros Hc; now contradiction Hc. }
    cbv zeta.
    destruct (Before (CreationTimestamp (rs_Meta rs)) (StartTime r)) eqn:Hold;
      [intros Hc; now contradiction Hc|].
    destruct (extractConfigMapVolumes rs) as [|name names] eqn:Hnames;
      [intros Hc; now contradiction Hc|].
    intros _. split; [reflexivity|]. split; [reflexivity|].
    exists rs. split; [reflexivity|]. split; [|now rewrite Hnames].
    unfold Before in Hold. now apply Z.ltb_ge.
Qed.

Lemma Reconcile_changes_only_when_witness :
  fst (Reconcile sampleLive appRequest (sampleCluster 150%Z))
  <> sampleCluster 150%Z
  /\ shouldProcessNamespace sampleLive (req_Namespace appRequest) = true.
Proof.
  assert (Hchanged : fst (Reconcile sampleLive appRequest (sampleCluster 150%Z))
                     <> sampleCluster 150%Z).
  { intros Heq.
    apply (f_equal (fun w => clusterGetConfigMap w ("default", "app-config")))
      in Heq.
    vm_compute in Heq. discriminate. }
  split; [exact Hchanged|].
  apply (proj2 (Reconcile_changes_only_when sampleLive appRequest
                  (sampleCluster 150%Z)) Hchanged).
Defined.

Section Frame.
Context `{Regexp} {W : Type} `{Client W} `{!ClientLaws W}.
Variable r : ReplicaSetReconciler.
Variable rs : ReplicaSet.

Lemma step_frame_ConfigMap (w w' : W) (name : string) (res : option error)
    (k : NamespacedName) :
  k <> (Namespace (rs_Meta rs), name) ->
  processConfigMap r (Namespace (rs_Meta rs)) name rs w = (w', res) ->
  Get_ConfigMap w' k = Get_ConfigMap w k.
Proof.
  intros Hk. unfold processConfigMap.
  destruct (Get_ConfigMap w (Namespace (rs_Meta rs), name)) as [e|cm] eqn:Hget.
  { destruct (IsNotFound e); now intros [= <- _]. }
  destruct (isOwnerReferencePresent cm rs); [now intros [= <- _]|].
  destruct (DryRun (Config r)); [now intros [= <- _]|].
  destruct (SetOwnerReference rs cm (r_Scheme r)) as [e|cm'] eqn:Hset;
    [now intros [= <- _]|].
  intros Hupd. destruct res as [err|].
  { apply update_failure in Hupd. now subst. }
  apply (update_frame w cm' w' k Hupd).
  now rewrite (SetOwnerReference_key _ _ _ _ Hset), (get_key _ _ _ Hget).
Qed.

Lemma loop_frame_ConfigMap (names : list string) (w w' : W)
    (res : option error) (k : NamespacedName) :
  (fst k <> Namespace (rs_Meta rs) \/ ~ In (snd k) names) ->
  processConfigMaps r rs names w = (w', res) ->
  Get_ConfigMap w' k = Get_ConfigMap w k.
Proof.
  intros Hk. revert w. induction names as [|name rest IH]; intros w; simpl.
  - now intros [= <- _].
  - assert (Hne : k <> (Namespace (rs_Meta rs), name)).
    { intros ->. simpl in Hk. destruct Hk as [Hk|Hk]; [congruence|].
      apply Hk. now left. }
    assert (Hrest : fst k <> Namespace (rs_Meta rs) \/ ~ In (snd k) rest).
    { destruct Hk as [Hk|Hk]; [now left|]. right. intros Hin. apply Hk.
      now right. }
    destruct (processConfigMap r (Namespace (rs_Meta rs)) name rs w)
      as [w1 [err|]] eqn:Hstep.
    + intros [= <- _]. eapply step_frame_ConfigMap; eauto.
    + intros Hloop. rewrite (IH Hrest _ Hloop).
      eapply step_frame_ConfigMap; eauto.
Qed.

End Frame.

(** X12. Against a lawful client, [Reconcile] leaves every ReplicaSet as it
    was, and every ConfigMap that is in another namespace than the
    workload or that the workload does not mount. *)
Theorem Reconcile_frame `{Regexp} {W : Type} `{Client W} `{!ClientLaws W}
    (r : ReplicaSetReconciler) (req : NamespacedName) (w : W) :
  (forall k,
      Get_ReplicaSet (fst (Reconcile r req w)) k = Get_ReplicaSet w k)
  /\ (forall rs k,
        Get_ReplicaSet w req = inr rs ->
        fst k <> Namespace (rs_Meta rs)
        \/ ~ In (snd k) (extractConfigMapVolumes rs) ->
        Get_ConfigMap (fst (Reconcile r req w)) k = Get_ConfigMap w k).
Proof.
  unfold Reconcile.
  destruct (shouldProcessNamespace r (req_Namespace req)); simpl negb;
    cbv iota; [|split; reflexivity].
  destruct (Get_ReplicaSet w req) as [err|rs0] eqn:Hget.
  { destruct (IsNotFound err); split; reflexivity. }
  cbv zeta.
  destruct (Before (CreationTimestamp (rs_Meta rs0)) (StartTime r));
    [split; reflexivity|].
  destruct (length (extractConfigMapVolumes rs0) =? 0)%nat;
    [split; reflexivity|].
  destruct (processConfigMaps r rs0 (extractConfigMapVolumes rs0) w)
    as [w' res] eqn:Hloop.
  simpl fst. split.
  - intros k. now apply (loop_frame_ReplicaSet r rs0 _ _ _ _ k Hloop).
  - intros rs k [= <-] Hk.
    now apply (loop_frame_ConfigMap r rs0 _ _ _ _ k Hk Hloop).
Qed.

Lemma Reconcile_frame_witness :
  Get_ConfigMap
    (fst (Reconcile sampleLive appRequest twoNamespaces))
    ("kube-system", "app-config")
  = Get_ConfigMap twoNamespaces ("kube-system", "app-config")
  /\ Get_ConfigMap
       (fst (Reconcile sampleLive appRequest twoNamespaces))
       ("default", "app-config")
     <> Get_ConfigMap twoNamespaces ("default", "app-config").
Proof.
  split; [|vm_compute; discriminate].
  apply (proj2 (Reconcile_frame sampleLive appRequest twoNamespaces)
           (appRS 150%Z) ("kube-system", "app-config")).
  - reflexivity.
  - left. discriminate.
Defined.

Section Outcome.
Context `{Regexp} {W : Type} `{Client W} `{!ClientLaws W}.
Variable r : ReplicaSetReconciler.
Variable rs : ReplicaSet.
Hypothesis scheme_kind : registersReplicaSetKind (r_Scheme r).

Lemma loop_success (names : list string) (w w' : W) :
  processConfigMaps r rs names w = (w', None) ->
  forall name, In name names -> settled r rs w' name.
Proof.
  revert w. induction names as [|n rest IH]; intros w; simpl.
  - intros _ name [].
  - destruct (processConfigMap r (Namespace (rs_Meta rs)) n rs w)
      as [w1 [err|]] eqn:Hstep; [discriminate|].
    intros Hloop name [<-|Hin].
    + eapply loop_preserves_settled; [|exact Hloop].
      eapply step_settles; eauto.
    + eapply IH; eauto.
Qed.

Lemma loop_failure (names : list string) (w w' : W) (err : error) :
  processConfigMaps r rs names w = (w', Some err) ->
  exists done name rest,
    names = done ++ name :: rest
    /\ (forall n, In n done -> settled r rs w' n)
    /\ processConfigMap r (Namespace (rs_Meta rs)) name rs w'
        = (w', Some err)
    /\ (forall n, ~ In n done ->
          Get_ConfigMap w' (Namespace (rs_Meta rs), n)
          = Get_ConfigMap w (Namespace (rs_Meta rs), n)).
Proof.
  revert w. induction names as [|n0 rest0 IH]; intros w; simpl.
  - discriminate.
  - destruct (processConfigMap r (Namespace (rs_Meta rs)) n0 rs w)
      as [w1 [e|]] eqn:Hstep.
    + intros [= <- <-].
      apply failed_step_unchanged in Hstep as Hsame. subst w1.
      exists [], n0, rest0. split; [reflexivity|].
      split; [intros n []|]. split; [exact Hstep|]. reflexivity.
    + intros Hloop.
      destruct (IH _ Hloop) as (done & name & rest & -> & Hdone & Hfail & Hfr).
      exists (n0 :: done), name, rest. split; [reflexivity|].
      split; [|split; [exact Hfail|]].
      * intros n [<-|Hin]; [|now apply Hdone].
        eapply loop_preserves_settled; [|exact Hloop].
        eapply step_settles; eauto.
      * intros n Hn. rewrite Hfr by (intros Hin; apply Hn; now right).
        eapply step_frame_ConfigMap; [|exact Hstep].
        intros [= ->]. apply Hn. now left.
Qed.

End Outcome.

(** X13. Against a lawful client whose scheme registers the ReplicaSet
    kind, and with dry-run off: when [Reconcile] of a workload that is in
    scope and not older than the start time returns no error, every
    ConfigMap the workload mounts that can be read afterwards carries the
    owner reference to the workload. *)
Theorem Reconcile_success_owned `{Regexp} {W : Type} `{Client W}
    `{!ClientLaws W} (r : ReplicaSetReconciler) (req : NamespacedName)
    (w : W) (rs : ReplicaSet) :
  registersReplicaSetKind (r_Scheme r) ->
  DryRun (Config r) = false ->
  shouldProcessNamespace r (req_Namespace req) = true ->
  Get_ReplicaSet w req = inr rs ->
  (StartTime r <= CreationTimestamp (rs_Meta rs))%Z ->
  snd (snd (Reconcile r req w)) = None ->
  forall name cm,
    In name (extractConfigMapVolumes rs) ->
    Get_ConfigMap (fst (Reconcile r req w)) (Namespace (rs_Meta rs), name)
    = inr cm ->
    isOwnerReferencePresent cm rs = true.
Proof.
  intros Hkind Hdry Hscope Hget Hnew. unfold Reconcile.
  rewrite Hscope, Hget. simpl negb. cbv iota zeta.
  assert (Hb : Before (CreationTimestamp (rs_Meta rs)) (StartTime r) = false)
    by (unfold Before; now apply Z.ltb_ge).
  rewrite Hb.
  destruct (extractConfigMapVolumes rs) as [|n0 names] eqn:Hnames.
  { intros _ name cm []. }
  change (length (n0 :: names) =? 0)%nat with false. cbv iota.
  destruct (processConfigMaps r rs (n0 :: names) w) as [w' res] eqn:Hloop.
  simpl. intros -> name cm Hin Hcm.
  pose proof (loop_success r rs Hkind _ _ _ Hloop name Hin) as Hs.
  unfold settled in Hs. rewrite Hcm, Hdry in Hs.
  now rewrite orb_false_r in Hs.
Qed.

Lemma Reconcile_success_owned_witness :
  Get_ConfigMap
    (fst (Reconcile sampleLive appRequest (sampleCluster 150%Z)))
    ("default", "app-config") = inr ownedAppConfig
  /\ isOwnerReferencePresent ownedAppConfig (appRS 150%Z) = true.
Proof.
  assert (Hcm : Get_ConfigMap
                  (fst (Reconcile sampleLive appRequest
                          (sampleCluster 150%Z)))
                  ("default", "app-config") = inr ownedAppConfig)
    by reflexivity.
  split; [exact Hcm|].
  apply (Reconcile_success_owned sampleLive appRequest (sampleCluster 150%Z)
           (appRS 150%Z)) with (name := "app-config").
  - repeat constructor.
  - reflexivity.
  - reflexivity.
  - reflexivity.
  - simpl. lia.
  - reflexivity.
  - simpl. now left.
  - exact Hcm.
Defined.

(** X14. Against a lawful client whose scheme registers the ReplicaSet
    kind: when [Reconcile] returns an error, either the read of the
    workload failed with it and nothing changed, or the mounted names
    split at the one that failed: the names before it are settled, the
    failing step fails again with the same error on the state reached,
    and the ConfigMaps of all other names, the failing one included, are
    as they were. *)
Theorem Reconcile_failure `{Regexp} {W : Type} `{Client W}
    `{!ClientLaws W} (r : ReplicaSetReconciler) (req : NamespacedName)
    (w : W) (err : error) :
  registersReplicaSetKind (r_Scheme r) ->
  snd (snd (Reconcile r req w)) = Some err ->
  (Get_ReplicaSet w req = inl err /\ fst (Reconcile r req w) = w)
  \/ exists rs done name rest,
       Get_ReplicaSet w req = inr rs
       /\ extractConfigMapVolumes rs = done ++ name :: rest
       /\ (forall n, In n done -> settled r rs (fst (Reconcile r req w)) n)
       /\ processConfigMap r (Namespace (rs_Meta rs)) name rs
            (fst (Reconcile r req w))
          = (fst (Reconcile r req w), Some err)
       /\ (forall n, ~ In n done ->
             Get_ConfigMap (fst (Reconcile r req w))
               (Namespace (rs_Meta rs), n)
             = Get_ConfigMap w (Namespace (rs_Meta rs), n)).
Proof.
  intros Hkind. unfold Reconcile.
  destruct (shouldProcessNamespace r (req_Namespace req)); simpl negb;
    cbv iota; [|discriminate].
  destruct (Get_ReplicaSet w req) as [e|rs] eqn:Hget.
  { destruct (IsNotFound e); [discriminate|]. simpl. intros [= ->].
    now left. }
  cbv zeta.
  destruct (Before (CreationTimestamp (rs_Meta rs)) (StartTime r));
    [discriminate|].
  destruct (length (extractConfigMapVolumes rs) =? 0)%nat; [discriminate|].
  destruct (processConfigMaps r rs (extractConfigMapVolumes rs) w)
    as [w' res] eqn:Hloop.
  simpl. intros ->. right.
  destruct (loop_failure r rs Hkind _ _ _ _ Hloop)
    as (done & name & rest & Hsplit & Hdone & Hfail & Hframe).
  exists rs, done, name, rest. auto.
Qed.

Lemma Reconcile_failure_witness :
  snd (snd (Reconcile sampleLive richRequest richCluster)) = Some conflict
  /\ ((Get_ReplicaSet richCluster richRequest = inl conflict
       /\ fst (Reconcile sampleLive richRequest richCluster) = richCluster)
      \/ exists rs done name rest,
           Get_ReplicaSet richCluster richRequest = inr rs
           /\ extractConfigMapVolumes rs = done ++ name :: rest
           /\ (forall n, In n done ->
                 settled sampleLive rs
                   (fst (Reconcile sampleLive richRequest richCluster)) n)
           /\ processConfigMap sampleLive (Namespace (rs_Meta rs)) name rs
                (fst (Reconcile sampleLive richRequest richCluster))
              = (fst (Reconcile sampleLive richRequest richCluster),
                 Some conflict)
           /\ (forall n, ~ In n done ->
                 Get_ConfigMap
                   (fst (Reconcile sampleLive richRequest richCluster))
                   (Namespace (rs_Meta rs), n)
                 = Get_ConfigMap richCluster (Namespace (rs_Meta rs), n))).
Proof.
  split; [reflexivity|].
  apply (Reconcile_failure sampleLive richRequest richCluster conflict).
  - repeat constructor.
  - reflexivity.
Defined.

(** X15. For every client: when the workload is fetched and each ConfigMap
    it mounts is settled (absent, or already carrying the reference, or
    writes are off), [Reconcile] returns success and the state it was
    given. *)
Theorem Reconcile_nothing_to_do `{Regexp} {W : Type} `{Client W}
    (r : ReplicaSetReconciler) (req : NamespacedName) (w : W)
    (rs : ReplicaSet) :
  Get_ReplicaSet w req = inr rs ->
  (forall name, In name (extractConfigMapVolumes rs) ->
                settled r rs w name) ->
  Reconcile r req w = (w, (emptyResult, None)).
Proof.
  intros Hget Hall. unfold Reconcile. rewrite Hget.
  destruct (shouldProcessNamespace r (req_Namespace req)); [|reflexivity].
  simpl negb. cbv iota zeta.
  destruct (Before (CreationTimestamp (rs_Meta rs)) (StartTime r));
    [reflexivity|].
  destruct (length (extractConfigMapVolumes rs) =? 0)%nat; [reflexivity|].
  assert (Hloop : processConfigMaps r rs (extractConfigMapVolumes rs) w
                  = (w, None)).
  { revert Hall. generalize (extractConfigMapVolumes rs) as names.
    induction names as [|n rest IH]; intros Hall; simpl; [reflexivity|].
    rewrite (settled_noop r rs w n) by (apply Hall; now left).
    apply IH. intros name Hin. apply Hall. now right. }
  now rewrite Hloop.
Qed.

Lemma Reconcile_nothing_to_do_witness :
  Reconcile sampleLive appRequest
    (fst (Reconcile sampleLive appRequest (sampleCluster 150%Z)))
  = (fst (Reconcile sampleLive appRequest (sampleCluster 150%Z)),
     (emptyResult, None)).
Proof.
  apply (Reconcile_nothing_to_do sampleLive appRequest
           (fst (Reconcile sampleLive appRequest (sampleCluster 150%Z)))
           (appRS 150%Z)).
  - reflexivity.
  - intros name [<-|[]]. reflexivity.
Defined.
